(** * BulkWithdraw: token registry, atomic batch executor and off-chain
      orchestrator

    A shallow embedding of [contracts/BulkWithdraw.sol] (the ledger side) and
    of the [BulkWithdraw] class of [src/index.ts] (the off-ledger side),
    followed by the properties of the specification that were checked
    against them.

    Conventions.
    - Solidity unsigned integers are [Z] with the range written out: a
      checked operation that leaves the range is [Panic 0x11], an explicit
      down-cast [uint16(x)] is [x mod 2^16].
    - A Solidity [mapping(uint16 => address)] is a [gmap Z address] read
      through [slot], which gives [address(0)] on an absent key.
    - A reverting call returns [Revert f]; the state that a transaction
      leaves behind is computed by the [transact_*] wrappers, which keep the
      pre-state on revert as the EVM does.
    - JavaScript [bigint] is [Z]; a rejected promise is [Rejected e]. *)

From stdpp Require Import gmap strings list fin_maps pretty.
From Stdlib Require Import ZArith Lia.

Local Open Scope Z_scope.

(** ** EVM basics *)

Module Evm.

(** A 160-bit account address. *)
Abbreviation address := Z (only parsing).

Definition UINT8_MAX : Z := 255.
Definition UINT16_MAX : Z := 65535.
Definition UINT256_MAX : Z := 2 ^ 256 - 1.

(** [Panic(uint256)] code of an arithmetic overflow in checked code. *)
Definition OVERFLOW : Z := 17.

(** Why a call reverted: [Error(string)] of a failed [require],
    [Panic(uint256)] of a failed built-in check, a plain ether send that
    did not go through, or a call to an address without code. *)
Inductive failure : Type :=
| Error (reason : string)
| Panic (code : Z)
| SendFailed
| NoCode.

Inductive result (A : Type) : Type :=
| Ok (a : A)
| Revert (f : failure).
Arguments Ok {A} a.
Arguments Revert {A} f.

Definition is_ok {A} (r : result A) : bool :=
  match r with Ok _ => true | Revert _ => false end.

#[global] Instance result_ret : MRet result := fun _ a => Ok a.
#[global] Instance result_bind : MBind result := fun _ _ f r =>
  match r with Ok a => f a | Revert e => Revert e end.

(** [require(cond, reason)] *)
Definition require (cond : bool) (reason : string) : result unit :=
  if cond then Ok tt else Revert (Error reason).

(** [x + y] on [uint256] in checked mode *)
Definition checked_add (x y : Z) : result Z :=
  if UINT256_MAX <? x + y then Revert (Panic OVERFLOW) else Ok (x + y).

(** [i++] on a [uintN] loop counter of maximum [max] in checked mode *)
Definition checked_incr (max i : Z) : result Z :=
  if max <? i + 1 then Revert (Panic OVERFLOW) else Ok (i + 1).

(** Explicit conversion [uint16(x)]: truncation, never a revert. *)
Definition to_uint16 (x : Z) : Z := x mod 2 ^ 16.

(** Code that changes a machine state [S] on its way: the state comes
    back also from a reverting run, so that what was attempted before the
    revert can be inspected; whether it is kept is the transaction's
    business. *)
Definition exec (S A : Type) : Type := S → result A * S.

#[global] Instance exec_ret {S} : MRet (exec S) := fun _ a m => (Ok a, m).
#[global] Instance exec_bind {S} : MBind (exec S) := fun _ _ f c m =>
  match c m with
  | (Ok a, m') => f a m'
  | (Revert e, m') => (Revert e, m')
  end.

Definition lift {S A} (r : result A) : exec S A := fun m => (r, m).
Definition gets {S A} (f : S → A) : exec S A := fun m => (Ok (f m), m).

End Evm.
Export Evm.

(** ** Library code the contract imports

    [Counters.sol] and [Ownable.sol] come from OpenZeppelin 4.x and are not
    among the sources; [addToken] and the [onlyOwner] modifier run through
    them. *)

Module Counters.

(** Modelled from the spec: the type [Counters.Counter] behind [tokenId] is
    not among the sources. The spec has "a monotonically increasing counter
    starting at 1"; the library keeps it as
    [struct Counter { uint256 _value; }], which starts at 0 and is
    incremented before its first use. *)
Definition Counter := Z.

(** Modelled from the spec: [Counters.current] is not among the sources; it
    reads the counter. *)
Definition current (c : Counter) : Z := c.

(** Modelled from the spec: [Counters.increment] is not among the sources.
    The spec has the counter incremented by one before the id is taken
    ("pre-increment, so the first id is 1"); the library does it with
    [unchecked { counter._value += 1; }]. *)
Definition increment (c : Counter) : Counter := (c + 1) mod 2 ^ 256.

End Counters.

(** ** The contract: storage, registry *)

Module InvoiceParams.
Record t : Type := { receiver : address; amount : Z }.
End InvoiceParams.

Module TokenInvoiceParams.
Record t : Type := { token : Z; receiver : address; sender : address; amount : Z }.
End TokenInvoiceParams.

(** [IERC20]: the token contracts are foreign code. A ledger of tokens [E]
    answers a [transferFrom(from, to, amount)] sent by [msg_sender] to the
    contract at [token] with the returned [bool] and the new ledger, or with
    a revert; a call to an address that holds no code reverts. *)
Class IERC20 (E : Type) : Type := {
  transferFrom :
    ∀ (token msg_sender from to : address) (amount : Z), E → result (bool * E)
}.

Module Contract.

Record storage : Type := {
  _owner : address;                 (* Ownable *)
  tokenId : Counters.Counter;
  tokens : gmap Z address;          (* mapping(uint16 => address) *)
}.

(** Reading a mapping slot: absent keys hold the zero value. *)
Definition slot (m : gmap Z address) (k : Z) : address := default 0 (m !! k).

(** State right after deployment by [deployer]. *)
Definition deployed (deployer : address) : storage :=
  {| _owner := deployer; tokenId := 0; tokens := ∅ |}.

(** Modelled from the spec: [modifier onlyOwner] of [Ownable.sol] is not
    among the sources. The spec has the entry points "restricted to the
    owner"; the library requires [owner() == msg.sender] with the reason
    below. *)
Definition onlyOwner (s : storage) (msg_sender : address) : result unit :=
  require (bool_decide (_owner s = msg_sender)) "Ownable: caller is not the owner".

Inductive event : Type :=
| TokenAdded (id : Z).

Definition getTokenById (s : storage) (_id : Z) : result address :=
  _ ← require (negb (_id =? 0)) "id should not be 0";
  Ok (slot (tokens s) _id).

(** The loop of [getTokenByAddress], entered with the counter at [i].
    [fuel] only makes the recursion structural: the [uint16] counter can
    be incremented at most 65535 times before [i++] panics. *)
Fixpoint getTokenByAddress_loop (s : storage) (_token : address)
    (fuel : nat) (i : Z) : result Z :=
  if i <? Counters.current (tokenId s) then
    if slot (tokens s) i =? _token then Ok i
    else
      i' ← checked_incr UINT16_MAX i;
      match fuel with
      | O => Revert (Panic OVERFLOW)
      | S fuel' => getTokenByAddress_loop s _token fuel' i'
      end
  else Ok 0.

Definition getTokenByAddress (s : storage) (_token : address) : result Z :=
  getTokenByAddress_loop s _token (Z.to_nat UINT16_MAX) 0.

Definition addToken (s : storage) (msg_sender : address) (token : address)
    : result (storage * list event) :=
  _ ← onlyOwner s msg_sender;
  let tokenId' := Counters.increment (tokenId s) in
  let currentId := to_uint16 (Counters.current tokenId') in
  _ ← require (slot (tokens s) currentId =? 0) "Token already set!";
  Ok ({| _owner := _owner s;
         tokenId := tokenId';
         tokens := <[currentId := token]> (tokens s) |},
      [TokenAdded currentId]).

(** A transaction calling [addToken]: the storage it leaves and its
    receipt. A revert leaves the storage as it was. *)
Definition transact_addToken (s : storage) (msg_sender token : address)
    : storage * result (list event) :=
  match addToken s msg_sender token with
  | Ok (s', evs) => (s', Ok evs)
  | Revert f => (s, Revert f)
  end.

(** The owner registers the addresses of [ts] one after the other; the
    result is the final storage and the receipts in call order. *)
Fixpoint register_all (s : storage) (ts : list address)
    : storage * list (result (list event)) :=
  match ts with
  | [] => (s, [])
  | t :: ts' =>
      let '(s1, r) := transact_addToken s (_owner s) t in
      let '(s2, rs) := register_all s1 ts' in
      (s2, r :: rs)
  end.

(** *** Native-coin path *)

(** Ether balances, with the receivers that were sent to so far. *)
Record machine : Type := {
  ether : gmap address Z;
  sent : list (address * Z);
}.

Definition balance (bal : gmap address Z) (a : address) : Z := default 0 (bal !! a).

Section Native.
(** [address(this)] *)
Variable this : address.
(** Whether the code at an address takes a plain send within the gas
    stipend; the contract's own [receive() external payable {}] does. *)
Variable accepts : address → bool.

Definition move (bal : gmap address Z) (from to : address) (amount : Z)
    : gmap address Z :=
  let bal1 := <[from := balance bal from - amount]> bal in
  <[to := balance bal1 to + amount]> bal1.

(** [payable(to).transfer(amount)] *)
Definition transfer (to : address) (amount : Z) : exec machine unit :=
  fun m =>
    let m1 := {| ether := ether m; sent := sent m ++ [(to, amount)] |} in
    if balance (ether m) this <? amount then (Revert SendFailed, m1)
    else if (to =? this) || accepts to then
      (Ok tt, {| ether := move (ether m) this to amount; sent := sent m1 |})
    else (Revert SendFailed, m1).

(** First loop, entered with the [uint8] counter at [i] and
    [rest = params[i..]]. *)
Fixpoint sum_loop (i : Z) (rest : list InvoiceParams.t) (totalAmount : Z)
    : result Z :=
  match rest with
  | [] => Ok totalAmount
  | p :: rest' =>
      totalAmount' ← checked_add totalAmount (InvoiceParams.amount p);
      i' ← checked_incr UINT8_MAX i;
      sum_loop i' rest' totalAmount'
  end.

(** Second loop, likewise. *)
Fixpoint transfer_loop (i : Z) (rest : list InvoiceParams.t) : exec machine unit :=
  match rest with
  | [] => mret tt
  | p :: rest' =>
      _ ← transfer (InvoiceParams.receiver p) (InvoiceParams.amount p);
      i' ← lift (checked_incr UINT8_MAX i);
      transfer_loop i' rest'
  end.

Definition etherBulkTransferAmounts (s : storage) (msg_sender : address)
    (params : list InvoiceParams.t) : exec machine unit :=
  _ ← lift (onlyOwner s msg_sender);
  totalAmount ← lift (sum_loop 0 params 0);
  held ← gets (fun m => balance (ether m) this);
  _ ← lift (require (totalAmount <=? held)
              "There are not enough funds stored in the smart contract");
  transfer_loop 0 params.

(** A transaction calling [etherBulkTransferAmounts] with [msg_value]
    attached: the value reaches the contract before the body runs, so
    [address(this).balance] counts it (a caller that does not hold
    [msg_value] cannot make the call at all). Result: the balances the
    transaction leaves, its status, and the sends it went through. *)
Definition transact_etherBulkTransferAmounts (s : storage)
    (bal : gmap address Z) (msg_sender : address) (msg_value : Z)
    (params : list InvoiceParams.t)
    : gmap address Z * result unit * list (address * Z) :=
  if balance bal msg_sender <? msg_value then (bal, Revert SendFailed, [])
  else
    let funded := move bal msg_sender this msg_value in
    match etherBulkTransferAmounts s msg_sender params
            {| ether := funded; sent := [] |} with
    | (Ok _, m) => (ether m, Ok tt, sent m)
    | (Revert f, m) => (bal, Revert f, sent m)
    end.

End Native.

(** The sum of a batch, as a number. *)
Definition total_amount (params : list InvoiceParams.t) : Z :=
  foldr (fun p acc => InvoiceParams.amount p + acc) 0 params.

(** What [address(this).balance] reads while a call that came with
    [msg_value] runs. *)
Definition held_at_call (this : address) (bal : gmap address Z)
    (msg_sender : address) (msg_value : Z) : Z :=
  balance (move bal msg_sender this msg_value) this.

Definition INSUFFICIENT_FUNDS : failure :=
  Error "There are not enough funds stored in the smart contract".

(** *** Token path *)

Section Tokens.
Context {E : Type} `{IERC20 E}.
Variable this : address.

(** A [transferFrom] call as it leaves the contract: the callee and the
    three arguments. *)
Definition call : Type := address * address * address * Z.

Record token_machine : Type := {
  erc20 : E;
  calls : list call;
}.

(** [IERC20(token).transferFrom(from, to, amount)], the returned [bool]
    handed back to the caller. *)
Definition call_transferFrom (token from to : address) (amount : Z)
    : exec token_machine bool :=
  fun m =>
    let log := calls m ++ [(token, from, to, amount)] in
    match transferFrom token this from to amount (erc20 m) with
    | Ok (b, e') => (Ok b, {| erc20 := e'; calls := log |})
    | Revert f => (Revert f, {| erc20 := erc20 m; calls := log |})
    end.

(** The loop, entered with the [uint16] counter at [i] and
    [rest = params[i..]]. The result of [transferFrom] is not looked
    at. *)
Fixpoint token_loop (s : storage) (i : Z) (rest : list TokenInvoiceParams.t)
    : exec token_machine unit :=
  match rest with
  | [] => mret tt
  | p :: rest' =>
      let token := slot (tokens s) (TokenInvoiceParams.token p) in
      _ ← call_transferFrom token (TokenInvoiceParams.sender p)
            (TokenInvoiceParams.receiver p) (TokenInvoiceParams.amount p);
      i' ← lift (checked_incr UINT16_MAX i);
      token_loop s i' rest'
  end.

Definition erc20sMultiOriginBulkTransferAmounts (s : storage)
    (msg_sender : address) (params : list TokenInvoiceParams.t)
    : exec token_machine unit :=
  _ ← lift (onlyOwner s msg_sender);
  token_loop s 0 params.

(** The transaction: token ledger left behind, status, calls made. *)
Definition transact_erc20sMultiOriginBulkTransferAmounts (s : storage)
    (e : E) (msg_sender : address) (params : list TokenInvoiceParams.t)
    : E * result unit * list call :=
  match erc20sMultiOriginBulkTransferAmounts s msg_sender params
          {| erc20 := e; calls := [] |} with
  | (Ok _, m) => (erc20 m, Ok tt, calls m)
  | (Revert f, m) => (e, Revert f, calls m)
  end.

(** The call an invoice stands for, read off the storage. *)
Definition call_of (s : storage) (p : TokenInvoiceParams.t) : call :=
  (slot (tokens s) (TokenInvoiceParams.token p),
   TokenInvoiceParams.sender p,
   TokenInvoiceParams.receiver p,
   TokenInvoiceParams.amount p).

(** The token ledger after the calls [cs] made one after the other by
    [this], if none of them reverts. *)
Fixpoint apply_calls (e : E) (cs : list call) : result E :=
  match cs with
  | [] => Ok e
  | (token, from, to, amount) :: cs' =>
      match transferFrom token this from to amount e with
      | Ok (_, e') => apply_calls e' cs'
      | Revert f => Revert f
      end
  end.

End Tokens.

(** *** Describing a registry *)

(** [filled s o l]: the storage [s] is owned by [o] and holds exactly the
    addresses of [l] at the ids 1, 2, ..., [length l]. *)
Definition filled (s : storage) (o : address) (l : list address) : Prop :=
  _owner s = o ∧
  tokenId s = Z.of_nat (length l) ∧
  ∀ k : Z, tokens s !! k =
    if bool_decide (1 ≤ k ≤ Z.of_nat (length l)) then l !! Z.to_nat (k - 1) else None.

(** Receipts of [n] registrations that were given the ids
    [from + 1], ..., [from + n]. *)
Fixpoint receipts (from : Z) (n : nat) : list (result (list event)) :=
  match n with
  | O => []
  | S n' => Ok [TokenAdded (from + 1)] :: receipts (from + 1) n'
  end.

(** The ids that the receipts [rs] report as given out. *)
Definition assigned_ids (rs : list (result (list event))) : list Z :=
  rs ≫= fun r => match r with
                  | Ok evs => (fun ev => match ev with TokenAdded id => id end) <$> evs
                  | Revert _ => []
                  end.

End Contract.

(** ** A token ledger to run the executor against

    Tokens in the manner of OpenZeppelin's [ERC20]: [transferFrom] spends
    the allowance that [from] gave to the caller and moves the amount, and
    reverts when either is too small. *)

Module PlainToken.

Record ledger : Type := {
  code : gset Z;                              (* addresses that hold a token *)
  balances : gmap (Z * Z) Z;                  (* (token, holder) *)
  allowances : gmap (Z * Z * Z) Z;            (* (token, owner, spender) *)
}.

Definition balanceOf (e : ledger) (token holder : address) : Z :=
  default 0 (balances e !! (token, holder)).

Definition allowance (e : ledger) (token owner spender : address) : Z :=
  default 0 (allowances e !! (token, owner, spender)).

Definition plain_transferFrom (token msg_sender from to : address) (amount : Z)
    (e : ledger) : result (bool * ledger) :=
  if bool_decide (token ∈ code e) then
    if allowance e token from msg_sender <? amount then
      Revert (Error "ERC20: insufficient allowance")
    else if balanceOf e token from <? amount then
      Revert (Error "ERC20: transfer amount exceeds balance")
    else
      let debited := <[(token, from) := balanceOf e token from - amount]> (balances e) in
      Ok (true,
          {| code := code e;
             balances :=
               <[(token, to) := default 0 (debited !! (token, to)) + amount]> debited;
             allowances :=
               <[(token, from, msg_sender) := allowance e token from msg_sender - amount]>
                 (allowances e) |})
  else Revert NoCode.

#[global] Instance plain_IERC20 : IERC20 ledger :=
  {| transferFrom := plain_transferFrom |}.

End PlainToken.

(** ** Concrete inputs for the contract *)

Module ContractFixtures.
Import Contract PlainToken.

Definition batch_of_256 : list InvoiceParams.t :=
  replicate 256 {| InvoiceParams.receiver := 5; InvoiceParams.amount := 1 |}.

(** Two tokens at the addresses 1 and 2; the wallet 50 holds 10 of the
    first, the wallet 51 holds 20 of the second, and both have allowed
    the executor at 100 to spend as much. *)
Definition two_tokens : ledger :=
  {| code := {[ 1; 2 ]};
     balances := {[ (1, 50) := 10; (2, 51) := 20 ]};
     allowances := {[ (1, 50, 100) := 10; (2, 51, 100) := 20 ]} |}.

Definition two_invoices : list TokenInvoiceParams.t :=
  [ {| TokenInvoiceParams.token := 1; TokenInvoiceParams.receiver := 60;
       TokenInvoiceParams.sender := 50; TokenInvoiceParams.amount := 10 |};
    {| TokenInvoiceParams.token := 2; TokenInvoiceParams.receiver := 61;
       TokenInvoiceParams.sender := 51; TokenInvoiceParams.amount := 20 |} ].

Definition two_registered : storage := (register_all (deployed 9) [1; 2]).1.

(** A token that reports failure by returning [false] and never
    reverts, as the ERC-20 interface allows. *)
Inductive silent_ledger : Type := Silent.

#[global] Instance silent_IERC20 : IERC20 silent_ledger :=
  {| transferFrom := fun _ _ _ _ _ e => Ok (false, e) |}.

End ContractFixtures.

(** ** The off-ledger module ([src/index.ts], [src/types.ts]) *)

Module Wallet.
Record t : Type := { coinType : Z; account : Z; change : Z; index : Z }.
End Wallet.

Module Config.
Record t : Type := {
  chainId : Z;
  providerURL : string;
  contract : string;
  ownerWallet : Wallet.t;
}.
End Config.

Module CustomError.
Record t : Type := { code : string; message : string }.
End CustomError.

Module SendingInvoice.
Record t : Type := { amount : Z; receiver : string }.
End SendingInvoice.

(** [TokenInvoiceParams] of [types.ts]; the Solidity struct has the name. *)
Module TsTokenInvoiceParams.
Record t : Type := { token : Z; receiver : string; sender : string; amount : Z }.
End TsTokenInvoiceParams.

Module SendingTokenInvoice.
Record t : Type := {
  wallet : Wallet.t;
  tokenAddress : string;
  amount : Z;
  receiver : string;
}.
End SendingTokenInvoice.

Module Orchestrator.

(** A settled promise. *)
Inductive outcome (A : Type) : Type :=
| Resolved (a : A)
| Rejected (e : string).
Arguments Resolved {A} a.
Arguments Rejected {A} e.

#[global] Instance outcome_ret : MRet outcome := fun _ a => Resolved a.
#[global] Instance outcome_bind : MBind outcome := fun _ _ f o =>
  match o with Resolved a => f a | Rejected e => Rejected e end.

(** A state-changing call signed by [signer] and sent to the contract. *)
Inductive ledger_write : Type :=
| EtherBulkTransferAmounts (signer : string) (params : list SendingInvoice.t)
    (value nonce : Z)
| Erc20sMultiOriginBulkTransferAmounts (signer : string)
    (params : list TsTokenInvoiceParams.t).

(** An [async] method: it runs against the writes sent so far and settles
    with those sent by the end. *)
Definition io (A : Type) : Type := list ledger_write → outcome A * list ledger_write.

#[global] Instance io_ret : MRet io := fun _ a w => (Resolved a, w).
#[global] Instance io_bind : MBind io := fun _ _ f c w =>
  match c w with
  | (Resolved a, w') => f a w'
  | (Rejected e, w') => (Rejected e, w')
  end.

(** [await] of a read-only query *)
Definition await {A} (o : outcome A) : io A := fun w => (o, w).
Definition throw {A} (e : string) : io A := fun w => (Rejected e, w).

(** The collaborators of the class: the key-management provider, the
    JSON-RPC provider and the contracts behind it. Reads are answers of
    the ledger as it stands during the call. *)
Record Provider : Type := {
  (** [getEtherSigner(hdWallet, wallet).getAddress()] *)
  signerAddress : Wallet.t → string;
  (** [contract.getTokenByAddress(token)] *)
  getTokenByAddress : string → outcome Z;
  (** [erc20.balanceOf(holder)] on the token at the first argument *)
  balanceOf : string → string → outcome Z;
  (** [erc20.allowance(owner, spender)] on the token at the first argument *)
  allowance : string → string → string → outcome Z;
  (** [provider.getBalance(address)] *)
  getBalance : string → outcome Z;
  (** [provider.getTransactionCount(address, blockTag)] *)
  getTransactionCount : string → string → outcome Z;
  (** what sending a write comes back with *)
  submit : ledger_write → outcome unit;
}.

Section Class.
Variable config : Config.t.
Variable P : Provider.

Definition send (tx : ledger_write) : io unit :=
  fun w => (submit P tx, w ++ [tx]).

Definition getEtherSigner (wallet : Wallet.t) : string := signerAddress P wallet.

Definition checkTokenExistInContract (tokenAddress : string) : io bool :=
  tokenId ← await (getTokenByAddress P tokenAddress);
  if negb (tokenId =? 0) then mret true else mret false.

Definition checkWalletAllowance (walletAddress tokenAddress : string)
    (amount : Z) : io bool :=
  allowance ← await (allowance P tokenAddress walletAddress (Config.contract config));
  mret (amount <? allowance).

Definition checkWalletTokenBalance (walletAddress tokenAddress : string)
    (amount : Z) : io bool :=
  balance ← await (balanceOf P tokenAddress walletAddress);
  mret (amount <? balance).

Definition processInvoices (amount : Z) (sendingInvoices : list SendingInvoice.t)
    : io unit :=
  let signer := getEtherSigner (Config.ownerWallet config) in
  let totalAmount :=
    fold_left (fun total invoice => total + SendingInvoice.amount invoice)
      sendingInvoices 0 in
  contractBalance ← await (getBalance P (Config.contract config));
  if contractBalance + amount <? totalAmount then
    throw "Insufficient funds in contract to process invoices"
  else
    nonce ← await (getTransactionCount P signer "latest");
    send (EtherBulkTransferAmounts signer sendingInvoices amount nonce).

Definition TOKEN_NOT_IN_CONTRACT (invoice : SendingTokenInvoice.t) : CustomError.t :=
  {| CustomError.code := "TOKEN_NOT_IN_CONTRACT";
     CustomError.message :=
       "Token " +:+ SendingTokenInvoice.tokenAddress invoice
         +:+ " is not in the contract." |}.

Definition INSUFFICIENT_BALANCE (invoice : SendingTokenInvoice.t) : CustomError.t :=
  {| CustomError.code := "INSUFFICIENT_BALANCE";
     CustomError.message :=
       "Insufficient balance in wallet "
         +:+ pretty (Wallet.account (SendingTokenInvoice.wallet invoice))
         +:+ " for token " +:+ SendingTokenInvoice.tokenAddress invoice +:+ "." |}.

Definition INSUFFICIENT_ALLOWANCE (invoice : SendingTokenInvoice.t) : CustomError.t :=
  {| CustomError.code := "INSUFFICIENT_ALLOWANCE";
     CustomError.message :=
       "Insufficient allowance for wallet "
         +:+ pretty (Wallet.account (SendingTokenInvoice.wallet invoice))
         +:+ " to contract." |}.

(** Body of the [for (const invoice of sendingTokenInvoices)] loop; the
    two arrays [errors] and [invoices] it pushes to are passed through. *)
Definition processTokenInvoices_body
    (errors : list CustomError.t) (invoices : list TsTokenInvoiceParams.t)
    (invoice : SendingTokenInvoice.t)
    : io (list CustomError.t * list TsTokenInvoiceParams.t) :=
  let sender := getEtherSigner (SendingTokenInvoice.wallet invoice) in
  registered ← checkTokenExistInContract (SendingTokenInvoice.tokenAddress invoice);
  if negb registered then
    mret (errors ++ [TOKEN_NOT_IN_CONTRACT invoice], invoices)
  else
    funded ← checkWalletTokenBalance sender
               (SendingTokenInvoice.tokenAddress invoice)
               (SendingTokenInvoice.amount invoice);
    let errors := if negb funded then errors ++ [INSUFFICIENT_BALANCE invoice]
                  else errors in
    allowed ← checkWalletAllowance sender
                (SendingTokenInvoice.tokenAddress invoice)
                (SendingTokenInvoice.amount invoice);
    let errors := if negb allowed then errors ++ [INSUFFICIENT_ALLOWANCE invoice]
                  else errors in
    token ← await (getTokenByAddress P (SendingTokenInvoice.tokenAddress invoice));
    mret (errors,
          invoices ++ [ {| TsTokenInvoiceParams.token := token;
                           TsTokenInvoiceParams.sender := sender;
                           TsTokenInvoiceParams.receiver :=
                             SendingTokenInvoice.receiver invoice;
                           TsTokenInvoiceParams.amount :=
                             SendingTokenInvoice.amount invoice |} ]).

Fixpoint processTokenInvoices_loop
    (errors : list CustomError.t) (invoices : list TsTokenInvoiceParams.t)
    (rest : list SendingTokenInvoice.t)
    : io (list CustomError.t * list TsTokenInvoiceParams.t) :=
  match rest with
  | [] => mret (errors, invoices)
  | invoice :: rest' =>
      '(errors', invoices') ← processTokenInvoices_body errors invoices invoice;
      processTokenInvoices_loop errors' invoices' rest'
  end.

Definition processTokenInvoices (sendingTokenInvoices : list SendingTokenInvoice.t)
    : io (list CustomError.t) :=
  '(errors, invoices) ← processTokenInvoices_loop [] [] sendingTokenInvoices;
  if bool_decide (0 < length errors)%nat then mret errors
  else
    let signer := getEtherSigner (Config.ownerWallet config) in
    _ ← send (Erc20sMultiOriginBulkTransferAmounts signer invoices);
    mret errors.

(** *** The validator and the batch, in the specification's words *)

(** The on-ledger form of an invoice whose token has the registry id
    [id]. *)
Definition on_ledger (id : Z) (invoice : SendingTokenInvoice.t)
    : TsTokenInvoiceParams.t :=
  {| TsTokenInvoiceParams.token := id;
     TsTokenInvoiceParams.sender := getEtherSigner (SendingTokenInvoice.wallet invoice);
     TsTokenInvoiceParams.receiver := SendingTokenInvoice.receiver invoice;
     TsTokenInvoiceParams.amount := SendingTokenInvoice.amount invoice |}.

(** One invoice. Existence: the token's registry id is not 0; on
    failure [TOKEN_NOT_IN_CONTRACT] is recorded and nothing else is
    looked at. Otherwise the sender's balance and the allowance given
    to the executor are both read, and each one that does not strictly
    exceed the amount records its error, balance first. *)
Definition spec_check (invoice : SendingTokenInvoice.t)
    : outcome (list CustomError.t * list TsTokenInvoiceParams.t) :=
  let token := SendingTokenInvoice.tokenAddress invoice in
  let sender := signerAddress P (SendingTokenInvoice.wallet invoice) in
  let amount := SendingTokenInvoice.amount invoice in
  id ← getTokenByAddress P token;
  if id =? 0 then mret ([TOKEN_NOT_IN_CONTRACT invoice], [])
  else
    balance ← balanceOf P token sender;
    allowance ← allowance P token sender (Config.contract config);
    mret ((if amount <? balance then [] else [INSUFFICIENT_BALANCE invoice]) ++
          (if amount <? allowance then [] else [INSUFFICIENT_ALLOWANCE invoice]),
          [on_ledger id invoice]).

(** The batch: the invoices one after the other, their errors and their
    on-ledger forms put together in invoice order. *)
Fixpoint spec_validate (batch : list SendingTokenInvoice.t)
    : outcome (list CustomError.t * list TsTokenInvoiceParams.t) :=
  match batch with
  | [] => mret ([], [])
  | invoice :: rest =>
      '(errors1, invoices1) ← spec_check invoice;
      '(errors, invoices) ← spec_validate rest;
      mret (errors1 ++ errors, invoices1 ++ invoices)
  end.

(** The total a native batch asks for. *)
Definition requested (sendingInvoices : list SendingInvoice.t) : Z :=
  foldr (fun invoice total => SendingInvoice.amount invoice + total) 0 sendingInvoices.

End Class.

End Orchestrator.

(** ** Concrete collaborators to run the off-ledger module against *)

Module Fixtures.
Import Orchestrator.

Definition wallet_at (index : Z) : Wallet.t :=
  {| Wallet.coinType := 60; Wallet.account := 1; Wallet.change := 0;
     Wallet.index := index |}.

Definition demo_config : Config.t :=
  {| Config.chainId := 1;
     Config.providerURL := "http://127.0.0.1:7546";
     Config.contract := "0xExecutor";
     Config.ownerWallet := wallet_at 1 |}.

(** A ledger on which USDT has the registry id 1 and USDC the id 2; the
    wallet 7 holds 100 USDT and the wallet 8 holds 5 USDC, each having
    allowed the executor as much; the executor holds 30 wei. *)
Definition holding (token holder : string) : Z :=
  if String.eqb token "0xUSDT" && String.eqb holder "0xWallet7" then 100
  else if String.eqb token "0xUSDC" && String.eqb holder "0xWallet8" then 5
  else 0.

Definition demo_provider : Provider :=
  {| signerAddress := fun wallet => "0xWallet" +:+ pretty (Wallet.index wallet);
     getTokenByAddress := fun token =>
       Resolved (if String.eqb token "0xUSDT" then 1
                 else if String.eqb token "0xUSDC" then 2 else 0);
     balanceOf := fun token holder => Resolved (holding token holder);
     allowance := fun token owner spender =>
       Resolved (if String.eqb spender "0xExecutor" then holding token owner else 0);
     getBalance := fun account =>
       Resolved (if String.eqb account "0xExecutor" then 30 else 0);
     getTransactionCount := fun _ _ => Resolved 7;
     submit := fun _ => Resolved tt |}.

Definition invoice_unknown : SendingTokenInvoice.t :=
  {| SendingTokenInvoice.wallet := wallet_at 7;
     SendingTokenInvoice.tokenAddress := "0xDAI";
     SendingTokenInvoice.amount := 1;
     SendingTokenInvoice.receiver := "0xReceiver" |}.

(** Asks for exactly what the wallet holds and has allowed. *)
Definition invoice_exact : SendingTokenInvoice.t :=
  {| SendingTokenInvoice.wallet := wallet_at 8;
     SendingTokenInvoice.tokenAddress := "0xUSDC";
     SendingTokenInvoice.amount := 5;
     SendingTokenInvoice.receiver := "0xReceiver" |}.

Definition invoice_good : SendingTokenInvoice.t :=
  {| SendingTokenInvoice.wallet := wallet_at 7;
     SendingTokenInvoice.tokenAddress := "0xUSDT";
     SendingTokenInvoice.amount := 99;
     SendingTokenInvoice.receiver := "0xReceiver" |}.

End Fixtures.

(** ** More of the contract: the deposit entry point, runs of calls *)

Module ContractMore.
Import Contract.

(** [receive() external payable {}]: a plain send of [msg_value] to the
    contract by anybody; the body is empty. *)
Definition transact_receive (this : address) (bal : gmap address Z)
    (msg_sender : address) (msg_value : Z) : gmap address Z * result unit :=
  if balance bal msg_sender <? msg_value then (bal, Revert SendFailed)
  else (move bal msg_sender this msg_value, Ok tt).

(** Calls of [addToken] by any callers, one transaction after the other:
    the storage they leave. *)
Fixpoint attempt_all (s : storage) (calls : list (address * address)) : storage :=
  match calls with
  | [] => s
  | (msg_sender, token) :: rest =>
      attempt_all (transact_addToken s msg_sender token).1 rest
  end.

(** Whether a send from the contract at [this] to [to] goes through. *)
Definition takes (this : address) (accepts : address → bool) (to : address) : bool :=
  (to =? this) || accepts to.

(** The sends of a batch, in order. *)
Definition sends_of (params : list InvoiceParams.t) : list (address * Z) :=
  (fun p => (InvoiceParams.receiver p, InvoiceParams.amount p)) <$> params.

(** Two machines that made the same sends and hold the same balances
    (the maps may differ in entries that hold 0). *)
Definition same_funds (m1 m2 : machine) : Prop :=
  sent m1 = sent m2 ∧ ∀ x, balance (ether m1) x = balance (ether m2) x.

(** What a batch pays to the account [r]. *)
Fixpoint paid_to (r : address) (params : list InvoiceParams.t) : Z :=
  match params with
  | [] => 0
  | p :: rest =>
      (if bool_decide (InvoiceParams.receiver p = r) then InvoiceParams.amount p else 0)
      + paid_to r rest
  end.

End ContractMore.

(** ** The private key as a hex string

    [getEtherSigner] and [deployContractAndInitialize] turn the bytes of the
    derived key into the string given to [ethers.Wallet]:
    [newPrv.data().forEach((element) => { privateKey +=
       element.toString(16).length > 1 ? element.toString(16)
                                       : "0" + element.toString(16); })]. *)

Module KeyHex.

(** The digit of [Number.prototype.toString(16)] for a value below 16. *)
Definition hexDigit (d : Z) : string :=
  String.substring (Z.to_nat d) 1 "0123456789abcdef".

(** [n.toString(16)] for a non-negative integer; [fuel] bounds the number
    of digits. *)
Fixpoint toString16_go (fuel : nat) (n : Z) : string :=
  match fuel with
  | O => ""
  | S fuel' =>
      if n <? 16 then hexDigit n
      else toString16_go fuel' (n / 16) +:+ hexDigit (n mod 16)
  end.

Definition toString16 (n : Z) : string := toString16_go (S (Z.to_nat n)) n.

(** What one [element] adds to the string. *)
Definition hexByte (element : Z) : string :=
  if bool_decide (1 < String.length (toString16 element))%nat
  then toString16 element
  else "0" +:+ toString16 element.

Definition privateKeyHex (data : list Z) : string :=
  fold_left (fun privateKey element => privateKey +:+ hexByte element) data "".

(** Reading a hex string back, two digits a byte. *)
Definition digitValue (c : Ascii.ascii) : Z :=
  match String.index 0 (String c EmptyString) "0123456789abcdef" with
  | Some k => Z.of_nat k
  | None => 0
  end.

Fixpoint bytesOfHex (s : string) : list Z :=
  match s with
  | String c1 (String c2 rest) => (16 * digitValue c1 + digitValue c2) :: bytesOfHex rest
  | _ => []
  end.

(** Whether [hexByte b] is two digits that read back as [b]. *)
Definition reads_back (b : Z) : bool :=
  match hexByte b with
  | String c1 (String c2 EmptyString) => 16 * digitValue c1 + digitValue c2 =? b
  | _ => false
  end.

End KeyHex.

(** The codes that [processTokenInvoices] writes into its errors. *)
Definition error_codes : list string :=
  ["TOKEN_NOT_IN_CONTRACT"; "INSUFFICIENT_BALANCE"; "INSUFFICIENT_ALLOWANCE"].

(** ** Arithmetic of the counter and of the [uint16] cast *)

Lemma increment_small c : 0 ≤ c ≤ 65535 → Counters.increment c = c + 1.
Proof.
  intros Hc. unfold Counters.increment.
  assert (65536 < 2 ^ 256) by reflexivity.
  apply Z.mod_small. lia.
Qed.

Lemma to_uint16_small x : 0 ≤ x ≤ 65535 → to_uint16 x = x.
Proof.
  intros Hx. unfold to_uint16. apply Z.mod_small.
  change (2 ^ 16) with 65536. lia.
Qed.

Lemma to_uint16_wrap : to_uint16 65536 = 0.
Proof. reflexivity. Qed.

Lemma checked_incr_ok max i : i < max → checked_incr max i = Ok (i + 1).
Proof.
  intros Hi. unfold checked_incr.
  destruct (Z.ltb_spec max (i + 1)); [lia | reflexivity].
Qed.

Lemma checked_incr_overflow max i : max ≤ i → checked_incr max i = Revert (Panic OVERFLOW).
Proof.
  intros Hi. unfold checked_incr.
  destruct (Z.ltb_spec max (i + 1)); [reflexivity | lia].
Qed.

(** ** The registry after a run of registrations *)

Module Registry.
Import Contract.


Lemma filled_deployed o : filled (deployed o) o [].
Proof.
  repeat split. intros k. cbn [deployed tokens length].
  rewrite lookup_empty. case_bool_decide; [lia | done].
Qed.

Lemma filled_slot s o l k :
  filled s o l → 1 ≤ k ≤ Z.of_nat (length l) →
  l !! Z.to_nat (k - 1) = Some (slot (tokens s) k).
Proof.
  intros (_ & _ & Hk) Hr. unfold slot. rewrite Hk.
  rewrite bool_decide_eq_true_2 by done.
  destruct (lookup_lt_is_Some_2 l (Z.to_nat (k - 1))) as [x ->]; [lia | done].
Qed.

Lemma filled_slot_out s o l k :
  filled s o l → ¬ (1 ≤ k ≤ Z.of_nat (length l)) → slot (tokens s) k = 0.
Proof.
  intros (_ & _ & Hk) Hr. unfold slot. rewrite Hk.
  by rewrite bool_decide_eq_false_2.
Qed.

Lemma filled_slot_elem s o l k :
  filled s o l → 1 ≤ k ≤ Z.of_nat (length l) → slot (tokens s) k ∈ l.
Proof.
  intros Hf Hr. apply list_elem_of_lookup. eexists. by eapply filled_slot.
Qed.

(** One more registration on a registry that is not full. *)
Lemma addToken_filled s o l t :
  filled s o l → Z.of_nat (length l) < 65535 →
  ∃ s', addToken s o t = Ok (s', [TokenAdded (Z.of_nat (length l) + 1)]) ∧
        filled s' o (l ++ [t]).
Proof.
  intros Hf Hlen. pose proof Hf as (Ho & Hid & Hk).
  unfold addToken, onlyOwner.
  rewrite bool_decide_eq_true_2 by done. cbn.
  unfold Counters.current. rewrite Hid, increment_small, to_uint16_small by lia.
  rewrite (filled_slot_out s o l) by (done || lia). cbn.
  eexists; split; [reflexivity |].
  repeat split; cbn [_owner tokenId tokens]; [done | rewrite length_app; cbn; lia |].
  intros k. rewrite length_app. cbn [length].
  destruct (decide (k = Z.of_nat (length l) + 1)) as [-> | Hne].
  - rewrite lookup_insert_eq, bool_decide_eq_true_2 by lia.
    by rewrite (list_lookup_middle l [] t) by lia.
  - rewrite lookup_insert_ne, Hk by done.
    case_bool_decide as H1; case_bool_decide as H2; try lia; [| done].
    by rewrite lookup_app_l by lia.
Qed.

Lemma register_all_app s ts1 ts2 :
  register_all s (ts1 ++ ts2) =
  let '(s1, r1) := register_all s ts1 in
  let '(s2, r2) := register_all s1 ts2 in
  (s2, r1 ++ r2).
Proof.
  revert s. induction ts1 as [| t ts1 IH]; intros s; cbn.
  - by destruct (register_all s ts2).
  - destruct (transact_addToken s (_owner s) t) as [s1 r].
    rewrite IH. destruct (register_all s1 ts1) as [s2 rs].
    by destruct (register_all s2 ts2).
Qed.


Lemma register_all_filled s o l ts :
  filled s o l → Z.of_nat (length l + length ts) ≤ 65535 →
  ∃ s', register_all s ts = (s', receipts (Z.of_nat (length l)) (length ts)) ∧
        filled s' o (l ++ ts).
Proof.
  revert s l. induction ts as [| t ts IH]; intros s l Hf Hlen.
  - exists s. rewrite app_nil_r. by split.
  - cbn [length] in Hlen.
    destruct (addToken_filled s o l t Hf) as (s1 & Hadd & Hf1); [lia |].
    destruct (IH s1 (l ++ [t]) Hf1) as (s2 & Hrun & Hf2).
    { rewrite length_app. cbn. lia. }
    exists s2. cbn [register_all length receipts]. unfold transact_addToken.
    destruct Hf as (-> & _). rewrite Hadd, Hrun.
    rewrite <- app_assoc in Hf2. split; [| done].
    rewrite length_app. cbn [length].
    by replace (Z.of_nat (length l + 1)) with (Z.of_nat (length l) + 1) by lia.
Qed.

Lemma register_all_deployed o ts :
  Z.of_nat (length ts) ≤ 65535 →
  ∃ s, register_all (deployed o) ts = (s, receipts 0 (length ts)) ∧ filled s o ts.
Proof.
  intros Hlen.
  by apply (register_all_filled (deployed o) o [] ts (filled_deployed o)).
Qed.

(** *** The scan of [getTokenByAddress] *)

Lemma loop_step s a fuel i :
  getTokenByAddress_loop s a fuel i =
  if i <? Counters.current (tokenId s) then
    if slot (tokens s) i =? a then Ok i
    else
      i' ← checked_incr UINT16_MAX i;
      match fuel with
      | O => Revert (Panic OVERFLOW)
      | S fuel' => getTokenByAddress_loop s a fuel' i'
      end
  else Ok 0.
Proof. by destruct fuel. Qed.

(** No match at a nonzero index at or after [i]: the sentinel. *)
Lemma loop_not_found s a fuel i :
  0 ≤ i → tokenId s ≤ 65535 →
  (∀ j, i ≤ j < tokenId s → slot (tokens s) j = a → j = 0) →
  (Z.to_nat (tokenId s - i) ≤ fuel)%nat →
  getTokenByAddress_loop s a fuel i = Ok 0.
Proof.
  revert i. induction fuel as [| fuel IH]; intros i Hi Hmax Hno Hfuel;
    rewrite loop_step; unfold Counters.current;
    destruct (Z.ltb_spec i (tokenId s)) as [Hlt | Hge]; try done; try lia.
  destruct (Z.eqb_spec (slot (tokens s) i) a) as [Heq | Hne].
  - by rewrite (Hno i) by (done || lia).
  - rewrite checked_incr_ok by (unfold UINT16_MAX; lia). cbn.
    apply IH; [lia | done | | lia].
    intros j Hj. apply Hno. lia.
Qed.

(** The first match at or after [i] is what the scan returns. *)
Lemma loop_found s a fuel i k :
  0 ≤ i ≤ k → k < tokenId s → k ≤ 65535 →
  slot (tokens s) k = a →
  (∀ j, i ≤ j < k → slot (tokens s) j ≠ a) →
  (Z.to_nat (k - i) ≤ fuel)%nat →
  getTokenByAddress_loop s a fuel i = Ok k.
Proof.
  revert i. induction fuel as [| fuel IH]; intros i Hi Hk Hmax Hat Hno Hfuel;
    rewrite loop_step; unfold Counters.current;
    (destruct (Z.ltb_spec i (tokenId s)) as [Hlt | Hge]; [| lia]);
    destruct (Z.eqb_spec (slot (tokens s) i) a) as [Heq | Hne].
  - by replace i with k by lia.
  - assert (i = k) as -> by lia. done.
  - destruct (decide (i = k)) as [-> | Hik]; [done |].
    exfalso. apply (Hno i); [lia | done].
  - destruct (decide (i = k)) as [-> | Hik]; [done |].
    rewrite checked_incr_ok by (unfold UINT16_MAX; lia). cbn.
    apply IH; [lia | done | done | done | | lia].
    intros j Hj. apply Hno. lia.
Qed.

(** More than 65535 registrations and no match: the [uint16] counter
    runs over. *)
Lemma loop_overflow s a fuel i :
  0 ≤ i ≤ 65535 → 65535 < tokenId s →
  (∀ j, i ≤ j ≤ 65535 → slot (tokens s) j ≠ a) →
  getTokenByAddress_loop s a fuel i = Revert (Panic OVERFLOW).
Proof.
  revert i. induction fuel as [| fuel IH]; intros i Hi Hmax Hno;
    rewrite loop_step; unfold Counters.current;
    (destruct (Z.ltb_spec i (tokenId s)) as [Hlt | Hge]; [| lia]);
    (destruct (Z.eqb_spec (slot (tokens s) i) a) as [Heq | Hne];
      [exfalso; apply (Hno i); [lia | done] |]).
  - unfold checked_incr, UINT16_MAX. by destruct (65535 <? i + 1).
  - destruct (decide (i = 65535)) as [-> | Hi'];
      [by rewrite checked_incr_overflow |].
    rewrite checked_incr_ok by (unfold UINT16_MAX; lia). cbn.
    apply IH; [lia | done |]. intros j Hj. apply Hno. lia.
Qed.

(** The fuel given by [getTokenByAddress] is never what stops the scan:
    any larger amount gives the same answer. *)
Lemma loop_fuel_irrelevant s a fuel i :
  0 ≤ i → (Z.to_nat (65535 - i) ≤ fuel)%nat →
  getTokenByAddress_loop s a fuel i =
  getTokenByAddress_loop s a (Z.to_nat (65535 - i)) i.
Proof.
  revert i. induction fuel as [| fuel IH]; intros i Hi Hfuel.
  - by replace (Z.to_nat (65535 - i)) with O by lia.
  - rewrite !(loop_step s a _ i).
    destruct (i <? Counters.current (tokenId s)); [| done].
    destruct (slot (tokens s) i =? a); [done |].
    destruct (decide (65535 ≤ i)) as [Hov | Hin].
    + by rewrite checked_incr_overflow.
    + rewrite checked_incr_ok by (unfold UINT16_MAX; lia). cbn.
      replace (Z.to_nat (65535 - i)) with (S (Z.to_nat (65535 - (i + 1)))) by lia.
      apply IH; lia.
Qed.

(** *** Slots are written by registrations only *)


Lemma transact_addToken_slots s c t s' r k :
  transact_addToken s c t = (s', r) →
  tokens s' !! k = tokens s !! k ∨ k ∈ assigned_ids [r].
Proof.
  unfold transact_addToken, addToken. intros Hrun.
  destruct (onlyOwner s c) as [[] | f]; cbn in Hrun; [| inversion Hrun; by left].
  destruct (require _ _) as [[] | f]; cbn in Hrun; inversion Hrun; subst; [| by left].
  cbn [tokens].
  destruct (decide (to_uint16 (Counters.current (Counters.increment (tokenId s))) = k))
    as [<- | Hne].
  - right. cbn. set_solver.
  - left. by rewrite lookup_insert_ne.
Qed.

Lemma register_all_slots s ts k :
  tokens (register_all s ts).1 !! k = tokens s !! k ∨
  k ∈ assigned_ids (register_all s ts).2.
Proof.
  revert s. induction ts as [| t ts IH]; intros s; cbn [register_all]; [by left |].
  destruct (transact_addToken s (_owner s) t) as [s1 r] eqn:Hstep.
  specialize (IH s1). destruct (register_all s1 ts) as [s2 rs]. cbn [fst snd] in *.
  change (r :: rs) with ([r] ++ rs). unfold assigned_ids in *.
  rewrite bind_app, elem_of_app.
  destruct (transact_addToken_slots _ _ _ _ _ k Hstep) as [<- | Hin];
    [destruct IH; auto | right; left; exact Hin].
Qed.

End Registry.


(** ** Registry: the claims *)

Module RegistryClaims.
Import Contract Registry.

Lemma receipts_ok from n : Forall (fun r => is_ok r = true) (receipts from n).
Proof. revert from. induction n; intros from; cbn; constructor; auto. Qed.

Lemma receipts_last from n :
  last (receipts from (S n)) = Some (Ok [TokenAdded (from + Z.of_nat (S n))]).
Proof.
  revert from. induction n as [| n IH]; intros from.
  - cbn. repeat (f_equal; try lia).
  - change (receipts from (S (S n)))
      with (Ok [TokenAdded (from + 1)] :: receipts (from + 1) (S n)).
    rewrite last_cons, IH. repeat (f_equal; try lia).
Qed.

Lemma assigned_ids_receipts from n k :
  k ∈ assigned_ids (receipts from n) → from + 1 ≤ k ≤ from + Z.of_nat n.
Proof.
  revert from. induction n as [| n IH]; intros from; cbn.
  - by intros ?%elem_of_nil.
  - unfold assigned_ids. cbn. rewrite elem_of_cons.
    intros [-> | Hin]; [lia |]. apply IH in Hin. lia.
Qed.

(** The registration that follows the 65535th gets id 0. *)
Lemma addToken_wrap s o l t :
  filled s o l → Z.of_nat (length l) = 65535 →
  addToken s o t =
    Ok ({| _owner := o; tokenId := 65536; tokens := <[0 := t]> (tokens s) |},
        [TokenAdded 0]).
Proof.
  intros Hf Hlen. pose proof Hf as (Ho & Hid & _).
  unfold addToken, onlyOwner. rewrite bool_decide_eq_true_2 by done. cbn.
  unfold Counters.current. rewrite Hid, Hlen, increment_small by lia.
  change (to_uint16 (65535 + 1)) with 0.
  rewrite (filled_slot_out s o l) by (done || lia). cbn.
  by rewrite Ho.
Qed.

(** The registry once the counter has passed the [uint16] range. *)
Lemma register_all_wrap o ts t :
  Z.of_nat (length ts) = 65535 →
  ∃ s, filled s o ts ∧
       register_all (deployed o) (ts ++ [t]) =
         ({| _owner := o; tokenId := 65536; tokens := <[0 := t]> (tokens s) |},
          receipts 0 (length ts) ++ [Ok [TokenAdded 0]]).
Proof.
  intros Hlen.
  destruct (register_all_deployed o ts) as (s & Hrun & Hf); [lia |].
  exists s. split; [done |].
  rewrite register_all_app, Hrun. cbn [register_all]. unfold transact_addToken.
  destruct Hf as (Ho & Hrest). rewrite Ho.
  by rewrite (addToken_wrap s o ts t) by (done || by split).
Qed.

(** Up to the 65535th, the [k]-th registration is given id [k] and
    [getTokenById k] returns its address. *)
Lemma ids_sequential o ts :
  Z.of_nat (length ts) ≤ 65535 →
  (register_all (deployed o) ts).2 = receipts 0 (length ts) ∧
  ∀ k a, ts !! k = Some a →
    getTokenById (register_all (deployed o) ts).1 (Z.of_nat k + 1) = Ok a.
Proof.
  intros Hlen. destruct (register_all_deployed o ts Hlen) as (s & -> & Hf).
  split; [done |]. intros k a Hk. cbn [fst]. unfold getTokenById.
  pose proof (lookup_lt_Some _ _ _ Hk).
  destruct (Z.eqb_spec (Z.of_nat k + 1) 0); [lia |]. cbn.
  pose proof (filled_slot s o ts (Z.of_nat k + 1) Hf) as Hs.
  replace (Z.to_nat (Z.of_nat k + 1 - 1)) with k in Hs by lia.
  rewrite Hk in Hs. f_equal. symmetry. apply (inj Some), Hs. lia.
Qed.

(** An address that is not the last one registered is found at the first
    id it was registered at. *)
Lemma getTokenByAddress_earlier o ts k a :
  Z.of_nat (length ts) ≤ 65535 → a ≠ 0 →
  ts !! k = Some a → (∀ j b, (j < k)%nat → ts !! j = Some b → b ≠ a) →
  (S k < length ts)%nat →
  getTokenByAddress (register_all (deployed o) ts).1 a = Ok (Z.of_nat k + 1).
Proof.
  intros Hlen Ha Hk Hfirst Hlast.
  destruct (register_all_deployed o ts Hlen) as (s & -> & Hf). cbn [fst].
  pose proof Hf as (_ & Hid & _).
  unfold getTokenByAddress.
  apply loop_found; unfold UINT16_MAX; try lia.
  - pose proof (filled_slot s o ts (Z.of_nat k + 1) Hf) as Hs.
    replace (Z.to_nat (Z.of_nat k + 1 - 1)) with k in Hs by lia.
    rewrite Hk in Hs. symmetry. apply (inj Some), Hs. lia.
  - intros j Hj. destruct (decide (j = 0)) as [-> | Hj0].
    + by rewrite (filled_slot_out s o ts 0) by (done || lia).
    + apply (Hfirst (Z.to_nat (j - 1))); [lia |].
      apply (filled_slot s o ts j Hf). lia.
Qed.

(** C1: the address registered last is not found by
    [getTokenByAddress]. The scan runs over the ids [0 .. tokenId - 1],
    while the ids in use are [1 .. tokenId]: after registering a new
    nonzero address [a] as the [k]-th token, [getTokenById k] returns
    [a] but [getTokenByAddress a] returns the sentinel 0 instead of
    [k]. *)
Theorem C1_latest_token_not_found o ts a :
  Z.of_nat (length ts) < 65535 → a ≠ 0 → a ∉ ts →
  let k := Z.of_nat (length ts) + 1 in
  let '(s, rs) := register_all (deployed o) (ts ++ [a]) in
  last rs = Some (Ok [TokenAdded k]) ∧
  getTokenById s k = Ok a ∧
  getTokenByAddress s a = Ok 0.
Proof.
  intros Hlen Ha Hnew k.
  destruct (register_all_deployed o (ts ++ [a])) as (s & -> & Hf).
  { rewrite length_app. cbn. lia. }
  pose proof Hf as (_ & Hid & _). rewrite length_app in Hid. cbn [length] in Hid.
  split; [| split].
  - rewrite length_app, Nat.add_comm. cbn [length Nat.add].
    rewrite receipts_last. subst k. repeat (f_equal; try lia).
  - unfold getTokenById. destruct (Z.eqb_spec k 0); [lia |]. cbn. f_equal.
    pose proof (filled_slot s o _ k Hf) as Hs. rewrite length_app in Hs.
    cbn [length] in Hs.
    rewrite (list_lookup_middle ts [] a) in Hs by lia.
    symmetry. apply (inj Some), Hs. lia.
  - unfold getTokenByAddress. apply loop_not_found; unfold UINT16_MAX; try lia.
    intros j Hj Hat. destruct (decide (j = 0)) as [| Hj0]; [done |]. exfalso.
    pose proof (filled_slot s o _ j Hf) as Hs. rewrite length_app in Hs.
    cbn [length] in Hs.
    rewrite lookup_app_l, Hat in Hs by lia.
    apply Hnew, list_elem_of_lookup. eexists. apply Hs. lia.
Qed.

Lemma C1_latest_token_not_found_witness :
  last (register_all (deployed 9) ([] ++ [77])).2 = Some (Ok [TokenAdded 1]) ∧
  getTokenById (register_all (deployed 9) ([] ++ [77])).1 1 = Ok 77 ∧
  getTokenByAddress (register_all (deployed 9) ([] ++ [77])).1 77 = Ok 0.
Proof.
  pose proof (C1_latest_token_not_found 9 [] 77) as H.
  cbn [length Z.of_nat] in H.
  destruct (register_all (deployed 9) ([] ++ [77])) as [s rs].
  apply H; [lia | lia | apply not_elem_of_nil].
Defined.

(** Once the check has fired it fires again: the revert takes the counter
    back, so the next call selects the same slot. *)
Lemma register_all_refused s more :
  (∀ t, addToken s (_owner s) t = Revert (Error "Token already set!")) →
  register_all s more = (s, replicate (length more) (Revert (Error "Token already set!"))).
Proof.
  intros Hfires. induction more as [| t more IH]; [done |].
  cbn [register_all length replicate]. unfold transact_addToken.
  by rewrite Hfires, IH.
Qed.

(** C7 (amended): during the first 65536 registrations on a fresh
    registry the slot selected by the incremented counter is unoccupied:
    after any run of at most 65535 registrations, all of which succeed,
    the next one finds its slot empty and succeeds as well, so the check
    behind "Token already set!" does not fire. After 65536 registrations
    the next call selects the slot [uint16(65537) = 1], which holds the
    address registered first; when that address is not zero the check
    fires, the call reverts, and so does every call after it. *)
Theorem C7_next_slot_unoccupied o ts t :
  (Z.of_nat (length ts) ≤ 65535 →
   let '(s, rs) := register_all (deployed o) ts in
   Forall (fun r => is_ok r = true) rs ∧
   slot (tokens s) (to_uint16 (Counters.current (Counters.increment (tokenId s)))) = 0 ∧
   is_ok (addToken s o t) = true) ∧
  (Z.of_nat (length ts) = 65536 →
   ∀ first, ts !! 0%nat = Some first → first ≠ 0 →
   let '(s, rs) := register_all (deployed o) ts in
   Forall (fun r => is_ok r = true) rs ∧
   to_uint16 (Counters.current (Counters.increment (tokenId s))) = 1 ∧
   slot (tokens s) 1 = first ∧
   addToken s o t = Revert (Error "Token already set!") ∧
   ∀ more,
     register_all s more
       = (s, replicate (length more) (Revert (Error "Token already set!")))).
Proof.
  split.
  - intros Hlen. destruct (register_all_deployed o ts Hlen) as (s & -> & Hf).
    pose proof Hf as (Ho & Hid & _).
    split; [apply receipts_ok |].
    destruct (decide (Z.of_nat (length ts) = 65535)) as [Hfull | Hroom].
    + split; [| by rewrite (addToken_wrap s o ts t)].
      unfold Counters.current. rewrite Hid, Hfull.
      change (to_uint16 (Counters.increment 65535)) with 0.
      apply (filled_slot_out s o ts); [done | lia].
    + destruct (addToken_filled s o ts t Hf) as (s' & -> & _); [lia |].
      split; [| done].
      unfold Counters.current. rewrite Hid, increment_small, to_uint16_small by lia.
      apply (filled_slot_out s o ts); [done | lia].
  - intros Hlen first Hfirst Hset.
    destruct ts as [| last ts _] using rev_ind; [done |].
    rewrite length_app in Hlen. cbn [length] in Hlen.
    destruct (register_all_wrap o ts last) as (s & Hf & ->); [lia |].
    rewrite lookup_app_l in Hfirst by lia.
    assert (slot (<[0 := last]> (tokens s)) 1 = first) as Hslot.
    { transitivity (slot (tokens s) 1);
        [unfold slot; by rewrite lookup_insert_ne |].
      pose proof (filled_slot s o ts 1 Hf ltac:(lia)) as Hs.
      change (Z.to_nat (1 - 1)) with 0%nat in Hs. rewrite Hfirst in Hs.
      symmetry. by apply (inj Some) in Hs. }
    assert (∀ t', addToken {| _owner := o; tokenId := 65536;
                               tokens := <[0 := last]> (tokens s) |} o t'
                  = Revert (Error "Token already set!")) as Hfires.
    { intros t'. unfold addToken, onlyOwner. cbn [_owner tokenId tokens].
      rewrite bool_decide_eq_true_2 by done.
      change (to_uint16 (Counters.current (Counters.increment 65536))) with 1.
      rewrite Hslot. by destruct (Z.eqb_spec first 0). }
    split; [apply Forall_app; split; [apply receipts_ok | by constructor] |].
    split; [done |]. split; [exact Hslot |]. split; [apply Hfires |].
    intros more. by apply register_all_refused.
Qed.

Lemma C7_next_slot_unoccupied_witness :
  (Forall (fun r => is_ok r = true) (register_all (deployed 9) [77]).2 ∧
   slot (tokens (register_all (deployed 9) [77]).1)
     (to_uint16 (Counters.current (Counters.increment
        (tokenId (register_all (deployed 9) [77]).1)))) = 0 ∧
   is_ok (addToken (register_all (deployed 9) [77]).1 9 78) = true) ∧
  addToken (register_all (deployed 9) (replicate (Z.to_nat 65536) 1)).1 9 78
    = Revert (Error "Token already set!").
Proof.
  split.
  - pose proof (proj1 (C7_next_slot_unoccupied 9 [77] 78)) as H.
    destruct (register_all (deployed 9) [77]) as [s rs].
    apply H. cbn. lia.
  - pose proof (proj2 (C7_next_slot_unoccupied 9 (replicate (Z.to_nat 65536) 1) 78)) as H.
    rewrite length_replicate in H.
    specialize (H ltac:(lia) 1
                  (lookup_replicate_2 (Z.to_nat 65536) 1 0%nat ltac:(lia)) ltac:(lia)).
    destruct (register_all (deployed 9) (replicate (Z.to_nat 65536) 1)) as [s rs].
    apply H.
Defined.

(** The registry that 65536 registrations of the address 1 leave. *)
Lemma registry_full :
  ∃ s, filled s 9 (replicate (Z.to_nat 65535) 1) ∧
       register_all (deployed 9) (replicate (Z.to_nat 65536) 1) =
         ({| _owner := 9; tokenId := 65536; tokens := <[0 := 1]> (tokens s) |},
          receipts 0 (Z.to_nat 65535) ++ [Ok [TokenAdded 0]]).
Proof.
  replace (Z.to_nat 65536) with (Z.to_nat 65535 + 1)%nat by lia.
  rewrite replicate_add. change (replicate 1 1) with [1].
  destruct (register_all_wrap 9 (replicate (Z.to_nat 65535) 1) 1) as (s & Hf & Hrun).
  { rewrite length_replicate. lia. }
  exists s. split; [done |]. rewrite Hrun. by rewrite length_replicate.
Qed.

Lemma registry_full_slot s j :
  filled s 9 (replicate (Z.to_nat 65535) 1) → 0 ≤ j ≤ 65535 →
  slot (<[0 := 1]> (tokens s)) j = 1.
Proof.
  intros Hf Hj. unfold slot. destruct (decide (j = 0)) as [-> | Hj0].
  - by rewrite lookup_insert_eq.
  - rewrite lookup_insert_ne by done.
    assert (slot (tokens s) j ∈ replicate (Z.to_nat 65535) 1) as Hin.
    { apply (filled_slot_elem s 9); [done |]. rewrite length_replicate. lia. }
    by apply elem_of_replicate in Hin as [? _].
Qed.

(** C7 as stated fails: after 65536 successful registrations of a nonzero
    address the counter is 65536, the next call selects the slot
    [uint16(65537) = 1], which is occupied, and the check fires. *)
Lemma C7_duplicate_check_fires :
  let '(s, rs) := register_all (deployed 9) (replicate (Z.to_nat 65536) 1) in
  Forall (fun r => is_ok r = true) rs ∧
  addToken s 9 1 = Revert (Error "Token already set!").
Proof.
  destruct registry_full as (s & Hf & ->). split.
  - apply Forall_app. split; [apply receipts_ok | by constructor].
  - unfold addToken, onlyOwner. cbn [_owner tokenId tokens].
    rewrite bool_decide_eq_true_2 by done.
    change (to_uint16 (Counters.current (Counters.increment 65536))) with 1.
    by rewrite (registry_full_slot s 1 Hf).
Qed.

(** C8 (amended): [getTokenById 0] fails with "id should not be 0";
    [getTokenById] of a nonzero id that no registration was given returns
    the zero address; and, while at most 65535 tokens are registered,
    [getTokenByAddress] of an address that was never registered returns
    the sentinel 0. *)
Theorem C8_lookup_failures o ts :
  let '(s, rs) := register_all (deployed o) ts in
  getTokenById s 0 = Revert (Error "id should not be 0") ∧
  (∀ id, id ≠ 0 → id ∉ assigned_ids rs → getTokenById s id = Ok 0) ∧
  (Z.of_nat (length ts) ≤ 65535 → ∀ a, a ∉ ts → getTokenByAddress s a = Ok 0).
Proof.
  pose proof (register_all_slots (deployed o) ts) as Hslots.
  destruct (register_all (deployed o) ts) as [s rs] eqn:Hrun. cbn [fst snd] in Hslots.
  split; [done |]. split.
  - intros id Hid Hfree. unfold getTokenById.
    destruct (Z.eqb_spec id 0); [done |]. cbn. f_equal. unfold slot.
    destruct (Hslots id) as [-> | Hin]; [done | by destruct Hfree].
  - intros Hlen a Hnew.
    destruct (register_all_deployed o ts Hlen) as (s' & Hrun' & Hf).
    rewrite Hrun in Hrun'. inversion Hrun'; subst s'.
    pose proof Hf as (_ & Hid & _).
    unfold getTokenByAddress. apply loop_not_found; unfold UINT16_MAX; try lia.
    intros j Hj Hat. destruct (decide (j = 0)) as [| Hj0]; [done |]. exfalso.
    apply Hnew. rewrite <- Hat. apply (filled_slot_elem s o); [done | lia].
Qed.

Lemma C8_lookup_failures_witness :
  getTokenById (register_all (deployed 9) [77; 78]).1 0
    = Revert (Error "id should not be 0") ∧
  getTokenById (register_all (deployed 9) [77; 78]).1 3 = Ok 0 ∧
  getTokenByAddress (register_all (deployed 9) [77; 78]).1 5 = Ok 0.
Proof.
  pose proof (C8_lookup_failures 9 [77; 78]) as H.
  destruct (register_all (deployed 9) [77; 78]) as [s rs] eqn:Hrun.
  destruct H as (H0 & Hid & Haddr). cbn [fst]. split; [exact H0 |]. split.
  - apply Hid; [lia |]. vm_compute in Hrun. inversion Hrun; subst rs.
    cbn. rewrite !not_elem_of_cons. repeat split; try lia. apply not_elem_of_nil.
  - apply Haddr; [cbn; lia |].
    rewrite !not_elem_of_cons. repeat split; try lia. apply not_elem_of_nil.
Defined.

(** C8 as stated fails: with 65536 registrations made, looking up an
    address that was never registered does not return 0; the [uint16]
    loop counter of the scan overflows and the call reverts. *)
Lemma C8_unregistered_lookup_reverts :
  (2 ∉ replicate (Z.to_nat 65536) 1) ∧
  getTokenByAddress (register_all (deployed 9) (replicate (Z.to_nat 65536) 1)).1 2
    = Revert (Panic OVERFLOW).
Proof.
  split; [by intros [? _]%elem_of_replicate |].
  destruct registry_full as (s & Hf & ->). cbn [fst].
  unfold getTokenByAddress. apply loop_overflow; cbn [tokenId tokens]; [lia | lia |].
  intros j Hj. by rewrite (registry_full_slot s j Hf).
Qed.

Example getTokenById_zero :
  getTokenById (deployed 9) 0 = Revert (Error "id should not be 0").
Proof. reflexivity. Qed.

Example register_two :
  (register_all (deployed 9) [77; 78]).2 = [Ok [TokenAdded 1]; Ok [TokenAdded 2]].
Proof. reflexivity. Qed.

(** With two tokens registered the first is found, the second is not. *)
Example lookup_first_and_last :
  getTokenByAddress (register_all (deployed 9) [77; 78]).1 77 = Ok 1 ∧
  getTokenByAddress (register_all (deployed 9) [77; 78]).1 78 = Ok 0 ∧
  getTokenById (register_all (deployed 9) [77; 78]).1 2 = Ok 78.
Proof. repeat split; vm_compute; reflexivity. Qed.

Example addToken_not_owner :
  addToken (deployed 9) 8 77 = Revert (Error "Ownable: caller is not the owner").
Proof. reflexivity. Qed.

End RegistryClaims.

(** ** Native-coin path *)

Module NativeFacts.
Import Contract ContractFixtures.

Lemma total_amount_cons p rest :
  total_amount (p :: rest) = InvoiceParams.amount p + total_amount rest.
Proof. reflexivity. Qed.

Lemma total_amount_nil : total_amount [] = 0.
Proof. reflexivity. Qed.

Lemma sum_loop_sound i rest acc t :
  sum_loop i rest acc = Ok t → t = acc + total_amount rest.
Proof.
  revert i acc. induction rest as [| p rest IH]; intros i acc; cbn [sum_loop];
    rewrite ?total_amount_cons, ?total_amount_nil.
  - intros [= <-]. lia.
  - unfold checked_add, checked_incr.
    destruct (UINT256_MAX <? acc + InvoiceParams.amount p); [done |].
    destruct (UINT8_MAX <? i + 1); [done |]. cbn.
    intros ->%IH. lia.
Qed.

(** 256 invoices or more: the [uint8] counter cannot get past the
    batch, whatever the amounts are. *)
Lemma sum_loop_long i rest acc :
  0 ≤ i ≤ 255 → 256 ≤ i + Z.of_nat (length rest) →
  sum_loop i rest acc = Revert (Panic OVERFLOW).
Proof.
  revert i acc. induction rest as [| p rest IH]; intros i acc Hi Hlen;
    cbn [sum_loop length] in *.
  - lia.
  - unfold checked_add.
    destruct (UINT256_MAX <? acc + InvoiceParams.amount p); [done |]. cbn.
    destruct (decide (i = 255)) as [-> | Hi']; [done |].
    rewrite checked_incr_ok by (unfold UINT8_MAX; lia). cbn.
    apply IH; lia.
Qed.

Lemma sum_loop_ok i rest acc :
  0 ≤ i → i + Z.of_nat (length rest) ≤ 255 →
  Forall (fun p => 0 ≤ InvoiceParams.amount p) rest →
  acc + total_amount rest ≤ UINT256_MAX →
  sum_loop i rest acc = Ok (acc + total_amount rest).
Proof.
  revert i acc. induction rest as [| p rest IH]; intros i acc Hi Hlen Hpos Hfit;
    cbn [sum_loop length] in *; rewrite ?total_amount_cons, ?total_amount_nil in *.
  - f_equal. lia.
  - apply Forall_cons in Hpos as [Hp Hpos].
    assert (0 ≤ total_amount rest).
    { clear -Hpos. induction Hpos; rewrite ?total_amount_cons, ?total_amount_nil; lia. }
    unfold checked_add.
    destruct (Z.ltb_spec UINT256_MAX (acc + InvoiceParams.amount p)); [lia |]. cbn.
    rewrite checked_incr_ok by (unfold UINT8_MAX; lia). cbn.
    rewrite IH by (done || lia). f_equal. lia.
Qed.

(** The body, one guard after the other. *)
Lemma etherBulkTransferAmounts_unfold this accepts s msg_sender params m :
  etherBulkTransferAmounts this accepts s msg_sender params m =
  match onlyOwner s msg_sender with
  | Revert f => (Revert f, m)
  | Ok _ =>
      match sum_loop 0 params 0 with
      | Revert f => (Revert f, m)
      | Ok totalAmount =>
          if totalAmount <=? balance (ether m) this
          then transfer_loop this accepts 0 params m
          else (Revert INSUFFICIENT_FUNDS, m)
      end
  end.
Proof.
  unfold etherBulkTransferAmounts, mbind, exec_bind, lift, gets.
  destruct (onlyOwner s msg_sender) as [[] | f]; [| done].
  destruct (sum_loop 0 params 0) as [t | f]; [| done].
  unfold require. by destruct (t <=? balance (ether m) this).
Qed.

Lemma onlyOwner_owner s : onlyOwner s (_owner s) = Ok tt.
Proof. unfold onlyOwner. by rewrite bool_decide_eq_true_2. Qed.

(** A batch that asks for more than the contract holds when the call
    runs reverts before the first send. *)
Lemma underfunded_reverts this accepts s msg_sender params m :
  balance (ether m) this < total_amount params →
  ∃ f, etherBulkTransferAmounts this accepts s msg_sender params m = (Revert f, m).
Proof.
  intros Hlow. rewrite etherBulkTransferAmounts_unfold.
  destruct (onlyOwner s msg_sender) as [[] | f]; [| by eexists].
  destruct (sum_loop 0 params 0) as [t | f] eqn:Hsum; [| by eexists].
  apply sum_loop_sound in Hsum as ->.
  destruct (Z.leb_spec (0 + total_amount params) (balance (ether m) this)); [lia |].
  by eexists.
Qed.

(** A sum that leaves the [uint256] range stops the summing loop, also
    on a batch that the [uint8] counter could get through. *)
Lemma sum_loop_overflow i rest acc :
  0 ≤ i → i + Z.of_nat (length rest) ≤ 255 →
  Forall (fun p => 0 ≤ InvoiceParams.amount p) rest →
  acc ≤ UINT256_MAX → UINT256_MAX < acc + total_amount rest →
  sum_loop i rest acc = Revert (Panic OVERFLOW).
Proof.
  revert i acc. induction rest as [| p rest IH]; intros i acc Hi Hlen Hpos Hacc Hover;
    cbn [sum_loop length] in *; rewrite ?total_amount_cons, ?total_amount_nil in *.
  - lia.
  - apply Forall_cons in Hpos as [Hp Hpos].
    unfold checked_add.
    destruct (Z.ltb_spec UINT256_MAX (acc + InvoiceParams.amount p)); [done |]. cbn.
    rewrite checked_incr_ok by (unfold UINT8_MAX; lia). cbn.
    apply IH; try done; lia.
Qed.

Lemma onlyOwner_other s msg_sender :
  msg_sender ≠ _owner s →
  onlyOwner s msg_sender = Revert (Error "Ownable: caller is not the owner").
Proof. intros Hother. unfold onlyOwner. by rewrite bool_decide_eq_false_2 by congruence. Qed.

(** C5 (amended): a native batch whose amounts sum to more than the
    balance the contract holds when the call runs is aborted: the
    transaction reverts, no send is made, and every balance is what it
    was. The failure is the "not enough funds" one when the caller is the
    owner, the batch has at most 255 invoices and the sum fits in a
    [uint256]; it is the arithmetic overflow panic when the owner's batch
    has 256 invoices or more, or has at most 255 and a sum that does not
    fit in a [uint256]; and it is the ownership error when the caller is
    not the owner. *)
Theorem C5_underfunded_batch_aborts this accepts s bal msg_sender msg_value params :
  held_at_call this bal msg_sender msg_value < total_amount params →
  ∃ f,
    transact_etherBulkTransferAmounts this accepts s bal msg_sender msg_value params
      = (bal, Revert f, []) ∧
    (msg_sender = _owner s → msg_value ≤ balance bal msg_sender →
     (length params ≤ 255)%nat →
     Forall (fun p => 0 ≤ InvoiceParams.amount p) params →
     total_amount params ≤ UINT256_MAX →
     f = INSUFFICIENT_FUNDS) ∧
    (msg_sender = _owner s → msg_value ≤ balance bal msg_sender →
     (256 ≤ length params)%nat →
     f = Panic OVERFLOW) ∧
    (msg_sender = _owner s → msg_value ≤ balance bal msg_sender →
     (length params ≤ 255)%nat →
     Forall (fun p => 0 ≤ InvoiceParams.amount p) params →
     UINT256_MAX < total_amount params →
     f = Panic OVERFLOW) ∧
    (msg_sender ≠ _owner s → msg_value ≤ balance bal msg_sender →
     f = Error "Ownable: caller is not the owner").
Proof.
  intros Hlow. unfold transact_etherBulkTransferAmounts, held_at_call in *.
  destruct (Z.ltb_spec (balance bal msg_sender) msg_value) as [Hpoor | Hrich].
  { exists SendFailed. split; [done |]. repeat split; intros; lia. }
  set (m := {| ether := move bal msg_sender this msg_value; sent := [] |}).
  destruct (underfunded_reverts this accepts s msg_sender params m Hlow) as (f & Hrun).
  rewrite Hrun. exists f. split; [done |].
  rewrite etherBulkTransferAmounts_unfold in Hrun.
  repeat split.
  - intros -> _ Hlen Hpos Hfit.
    rewrite onlyOwner_owner, sum_loop_ok in Hrun by (done || lia).
    destruct (Z.leb_spec (0 + total_amount params) (balance (ether m) this)) as [Hle | _];
      [cbn in Hle; lia | by inversion Hrun].
  - intros -> _ Hlen.
    rewrite onlyOwner_owner, sum_loop_long in Hrun by lia. by inversion Hrun.
  - intros -> _ Hlen Hpos Hover.
    assert (0 ≤ UINT256_MAX) by done.
    rewrite onlyOwner_owner, sum_loop_overflow in Hrun by (done || lia).
    by inversion Hrun.
  - intros Hother _. rewrite onlyOwner_other in Hrun by done. by inversion Hrun.
Qed.

Lemma C5_underfunded_batch_aborts_witness :
  held_at_call 100 {[ 100 := 5 ]} 9 0 < total_amount
    [ {| InvoiceParams.receiver := 5; InvoiceParams.amount := 10 |} ] ∧
  ∃ f,
    transact_etherBulkTransferAmounts 100 (fun _ => true) (deployed 9)
      {[ 100 := 5 ]} 9 0
      [ {| InvoiceParams.receiver := 5; InvoiceParams.amount := 10 |} ]
      = ({[ 100 := 5 ]}, Revert f, []) ∧
    f = INSUFFICIENT_FUNDS.
Proof.
  assert (held_at_call 100 {[ 100 := 5 ]} 9 0 < total_amount
    [ {| InvoiceParams.receiver := 5; InvoiceParams.amount := 10 |} ]) as Hlow
    by (vm_compute; reflexivity).
  split; [exact Hlow |].
  destruct (C5_underfunded_batch_aborts 100 (fun _ => true) (deployed 9)
              {[ 100 := 5 ]} 9 0 _ Hlow) as (f & Hrun & Hf & _).
  exists f. split; [exact Hrun |].
  apply Hf; [reflexivity | vm_compute; discriminate | cbn; lia
            | repeat constructor; cbn; lia | vm_compute; discriminate].
Defined.


(** C5 as stated fails: 256 invoices of 1 wei against an empty contract
    ask for more than it holds, yet the abort is not the "not enough
    funds" failure; the [uint8] counter of the summing loop overflows
    first. *)
Lemma C5_abort_is_not_always_insufficient_funds :
  held_at_call 100 ∅ 9 0 < total_amount batch_of_256 ∧
  transact_etherBulkTransferAmounts 100 (fun _ => true) (deployed 9) ∅ 9 0 batch_of_256
    = (∅, Revert (Panic OVERFLOW), []) ∧
  Revert (A := unit) (Panic OVERFLOW) ≠ Revert INSUFFICIENT_FUNDS.
Proof.
  split; [vm_compute; reflexivity |]. split; [| discriminate].
  unfold transact_etherBulkTransferAmounts.
  change (balance ∅ 9 <? 0) with false. cbv iota.
  rewrite etherBulkTransferAmounts_unfold, onlyOwner_owner.
  by rewrite sum_loop_long by (cbn; lia).
Qed.

(** C10: a call with 256 invoices or more reverts whatever the balances
    are, without a send; when the caller is the owner the revert is the
    arithmetic panic of the [uint8] loop counter. Conversely a call that
    succeeds had at most 255 invoices. *)
Theorem C10_native_batch_cap this accepts s bal msg_sender msg_value params :
  ((256 ≤ length params)%nat →
    ∃ f,
      transact_etherBulkTransferAmounts this accepts s bal msg_sender msg_value params
        = (bal, Revert f, []) ∧
      (msg_sender = _owner s → msg_value ≤ balance bal msg_sender →
       f = Panic OVERFLOW)) ∧
  (∀ bal' made,
    transact_etherBulkTransferAmounts this accepts s bal msg_sender msg_value params
      = (bal', Ok tt, made) →
    (length params ≤ 255)%nat).
Proof.
  assert ((256 ≤ length params)%nat →
    ∃ f,
      transact_etherBulkTransferAmounts this accepts s bal msg_sender msg_value params
        = (bal, Revert f, []) ∧
      (msg_sender = _owner s → msg_value ≤ balance bal msg_sender →
       f = Panic OVERFLOW)) as Hcap.
  { intros Hlen. unfold transact_etherBulkTransferAmounts.
    destruct (Z.ltb_spec (balance bal msg_sender) msg_value) as [Hpoor | Hrich].
    { exists SendFailed. split; [done | lia]. }
    rewrite etherBulkTransferAmounts_unfold, sum_loop_long by lia.
    destruct (onlyOwner s msg_sender) as [[] | f] eqn:Hown.
    - exists (Panic OVERFLOW). by split.
    - exists f. split; [done |]. intros -> _.
      by rewrite onlyOwner_owner in Hown. }
  split; [exact Hcap |].
  intros bal' made Hrun.
  destruct (decide (length params ≤ 255)%nat) as [| Hlong]; [done |].
  destruct Hcap as (f & Hrev & _); [lia |]. congruence.
Qed.

Lemma C10_native_batch_cap_witness :
  ∃ f,
    transact_etherBulkTransferAmounts 100 (fun _ => true) (deployed 9)
      {[ 100 := 1000 ]} 9 0 batch_of_256
      = ({[ 100 := 1000 ]}, Revert f, []) ∧
    f = Panic OVERFLOW.
Proof.
  destruct (C10_native_batch_cap 100 (fun _ => true) (deployed 9)
              {[ 100 := 1000 ]} 9 0 batch_of_256) as [Hcap _].
  destruct Hcap as (f & Hrun & Hf).
  { unfold batch_of_256. rewrite length_replicate. lia. }
  exists f. split; [exact Hrun |].
  apply Hf; [reflexivity | vm_compute; discriminate].
Defined.

Lemma held_at_call_funded this bal msg_sender msg_value :
  msg_sender ≠ this →
  held_at_call this bal msg_sender msg_value = balance bal this + msg_value.
Proof.
  intros Hne. unfold held_at_call, move, balance.
  by rewrite lookup_insert_eq, lookup_insert_ne.
Qed.

(** The batch [(R1, 10), (R2, 20)] against a contract that holds 30:
    R1 gains 10, R2 gains 20, the contract is left with nothing. *)
Example native_batch_of_two :
  let params := [ {| InvoiceParams.receiver := 61; InvoiceParams.amount := 10 |};
                  {| InvoiceParams.receiver := 62; InvoiceParams.amount := 20 |} ] in
  let '(bal', status, made) :=
    transact_etherBulkTransferAmounts 100 (fun _ => true) (deployed 9)
      {[ 100 := 30; 61 := 1 ]} 9 0 params in
  status = Ok tt ∧ made = [(61, 10); (62, 20)] ∧
  balance bal' 61 = 11 ∧ balance bal' 62 = 20 ∧ balance bal' 100 = 0.
Proof. vm_compute. repeat split; reflexivity. Qed.

(** Two invoices of 2^255 wei each: the sum leaves the [uint256] range and
    the summing loop panics before the balance is looked at. *)
Example native_sum_overflow :
  transact_etherBulkTransferAmounts 100 (fun _ => true) (deployed 9) {[ 100 := 30 ]} 9 0
    [ {| InvoiceParams.receiver := 61; InvoiceParams.amount := 2 ^ 255 |};
      {| InvoiceParams.receiver := 62; InvoiceParams.amount := 2 ^ 255 |} ]
  = ({[ 100 := 30 ]}, Revert (Panic OVERFLOW), []).
Proof. vm_compute. reflexivity. Qed.

(** 255 invoices go through. *)
Example native_batch_of_255 :
  (transact_etherBulkTransferAmounts 100 (fun _ => true) (deployed 9)
     {[ 100 := 255 ]} 9 0
     (replicate 255 {| InvoiceParams.receiver := 5; InvoiceParams.amount := 1 |})).1.2
  = Ok tt.
Proof. vm_compute. reflexivity. Qed.

(** A receiver that refuses the send undoes the sends made before it. *)
Example native_batch_refused :
  let params := [ {| InvoiceParams.receiver := 61; InvoiceParams.amount := 10 |};
                  {| InvoiceParams.receiver := 62; InvoiceParams.amount := 20 |} ] in
  transact_etherBulkTransferAmounts 100 (fun a => negb (a =? 62)) (deployed 9)
    {[ 100 := 30 ]} 9 0 params
  = ({[ 100 := 30 ]}, Revert SendFailed, [(61, 10); (62, 20)]).
Proof. vm_compute. reflexivity. Qed.

End NativeFacts.

(** ** Token path *)

Module TokenFacts.
Import Contract.

Section Generic.
Context {E : Type} `{IERC20 E}.
Variable this : address.

Lemma token_loop_cons s i p rest m :
  token_loop this s i (p :: rest) m =
  match transferFrom (slot (tokens s) (TokenInvoiceParams.token p)) this
          (TokenInvoiceParams.sender p) (TokenInvoiceParams.receiver p)
          (TokenInvoiceParams.amount p) (erc20 m) with
  | Revert f => (Revert f, {| erc20 := erc20 m; calls := calls m ++ [call_of s p] |})
  | Ok (_, e') =>
      let m' := {| erc20 := e'; calls := calls m ++ [call_of s p] |} in
      match checked_incr UINT16_MAX i with
      | Revert f => (Revert f, m')
      | Ok i' => token_loop this s i' rest m'
      end
  end.
Proof.
  cbn [token_loop]. unfold mbind, exec_bind, call_transferFrom, lift, call_of.
  destruct (transferFrom _ _ _ _ _ _) as [[b e'] | f]; [| done].
  by destruct (checked_incr UINT16_MAX i).
Qed.



End Generic.

Import PlainToken ContractFixtures.




(** The [bool] that [transferFrom] returns is dropped: a token that
    answers [false] instead of reverting does not stop the batch. *)
Remark returned_false_goes_unnoticed :
  transact_erc20sMultiOriginBulkTransferAmounts 100 two_registered Silent 9 two_invoices
  = (Silent, Ok tt, [(1, 50, 60, 10); (2, 51, 61, 20)]).
Proof. vm_compute. reflexivity. Qed.

(** A sender without allowance: the batch reverts at its invoice and the
    transfer made before it is undone. *)
Example token_batch_reverts :
  let poor := {| TokenInvoiceParams.token := 2; TokenInvoiceParams.receiver := 61;
                 TokenInvoiceParams.sender := 52; TokenInvoiceParams.amount := 1 |} in
  transact_erc20sMultiOriginBulkTransferAmounts 100 two_registered two_tokens 9
    (two_invoices ++ [poor])
  = (two_tokens, Revert (Error "ERC20: insufficient allowance"),
     [(1, 50, 60, 10); (2, 51, 61, 20); (2, 52, 61, 1)]).
Proof. vm_compute. reflexivity. Qed.

End TokenFacts.

(** ** The off-ledger module *)

Module OrchestratorFacts.
Import Orchestrator.

Section Facts.
Variable config : Config.t.
Variable P : Provider.

Lemma body_spec errors invoices invoice w :
  processTokenInvoices_body config P errors invoices invoice w =
  (match spec_check config P invoice with
   | Resolved (errors1, invoices1) => Resolved (errors ++ errors1, invoices ++ invoices1)
   | Rejected e => Rejected e
   end, w).
Proof.
  unfold processTokenInvoices_body, spec_check, checkTokenExistInContract,
    checkWalletTokenBalance, checkWalletAllowance, getEtherSigner, await,
    mbind, io_bind, outcome_bind, mret, io_ret, outcome_ret.
  destruct (getTokenByAddress P _) as [id | e]; [| done].
  destruct (id =? 0); cbn; [by rewrite app_nil_r |].
  destruct (balanceOf P _ _) as [balance | e]; [| done].
  destruct (allowance P _ _ _) as [allowance | e]; [| done].
  destruct (_ <? balance), (_ <? allowance); cbn;
    by rewrite ?app_nil_r, <- ?app_assoc.
Qed.

Lemma loop_spec batch errors invoices w :
  processTokenInvoices_loop config P errors invoices batch w =
  (match spec_validate config P batch with
   | Resolved (errors', invoices') => Resolved (errors ++ errors', invoices ++ invoices')
   | Rejected e => Rejected e
   end, w).
Proof.
  revert errors invoices. induction batch as [| invoice rest IH];
    intros errors invoices; cbn [processTokenInvoices_loop spec_validate].
  - cbn. by rewrite !app_nil_r.
  - unfold mbind at 1, io_bind. rewrite body_spec.
    unfold mbind at 2, outcome_bind.
    destruct (spec_check config P invoice) as [[errors1 invoices1] | e]; [| done].
    rewrite IH. unfold mbind, outcome_bind.
    destruct (spec_validate config P rest) as [[errors' invoices'] | e]; [| done].
    cbn. by rewrite !app_assoc.
Qed.

(** A batch without errors has one on-ledger invoice per invoice, in
    order, carrying the registry id that was read for its token. *)
Lemma clean_batch_complete batch invoices :
  spec_validate config P batch = Resolved ([], invoices) →
  Forall2 (fun invoice p =>
             ∃ id, getTokenByAddress P (SendingTokenInvoice.tokenAddress invoice)
                     = Resolved id ∧ id ≠ 0 ∧ p = on_ledger P id invoice)
          batch invoices.
Proof.
  revert invoices. induction batch as [| invoice rest IH]; intros invoices;
    cbn [spec_validate].
  - intros [= <-]. constructor.
  - unfold mbind at 1, outcome_bind. unfold spec_check at 1.
    unfold mbind at 1, outcome_bind.
    destruct (getTokenByAddress P _) as [id | e] eqn:Hid; [| done].
    destruct (Z.eqb_spec id 0) as [| Hne].
    { unfold mbind, outcome_bind.
      by destruct (spec_validate config P rest) as [[? ?] | ?]. }
    unfold mbind at 1, outcome_bind.
    destruct (balanceOf P _ _) as [balance | e]; [| done].
    unfold mbind at 1, outcome_bind.
    destruct (allowance P _ _ _) as [allowance | e]; [| done].
    cbn [mret outcome_ret]. unfold mbind, outcome_bind.
    destruct (spec_validate config P rest) as [[errors' invoices'] | e]; [| done].
    intros [= Herr <-].
    apply app_eq_nil in Herr as [_ ->].
    constructor; [by exists id | by apply IH].
Qed.

Lemma fold_left_requested sendingInvoices total :
  fold_left (fun total invoice => total + SendingInvoice.amount invoice)
    sendingInvoices total
  = total + requested sendingInvoices.
Proof.
  revert total. induction sendingInvoices as [| invoice rest IH]; intros total;
    cbn [fold_left requested foldr]; [lia |].
  rewrite IH. fold (requested rest). lia.
Qed.

(** C2: [processTokenInvoices] is all-or-nothing before the chain. When
    validation records an error, the errors are returned and nothing is
    sent to the ledger. When it records none, the token distribution
    entry point is sent exactly once, with one on-ledger invoice for
    every invoice of the batch, and the empty list is returned once
    that call has gone through. A read that is rejected while
    validating rejects the call, and nothing is sent either. *)
Theorem C2_all_or_nothing batch w :
  processTokenInvoices config P batch w =
    match spec_validate config P batch with
    | Rejected e => (Rejected e, w)
    | Resolved ([], invoices) =>
        let tx := Erc20sMultiOriginBulkTransferAmounts
                    (signerAddress P (Config.ownerWallet config)) invoices in
        (match submit P tx with
         | Resolved _ => Resolved []
         | Rejected e => Rejected e
         end, w ++ [tx])
    | Resolved (errors, _) => (Resolved errors, w)
    end ∧
  ∀ invoices,
    spec_validate config P batch = Resolved ([], invoices) →
    Forall2 (fun invoice p =>
               ∃ id, getTokenByAddress P (SendingTokenInvoice.tokenAddress invoice)
                       = Resolved id ∧ id ≠ 0 ∧ p = on_ledger P id invoice)
            batch invoices.
Proof.
  split; [| apply clean_batch_complete].
  unfold processTokenInvoices, mbind at 1, io_bind. rewrite loop_spec.
  destruct (spec_validate config P batch) as [[errors invoices] | e]; [| done].
  cbn [app]. destruct errors as [| error errors]; cbn [length].
  - rewrite bool_decide_eq_false_2 by lia.
    unfold mbind, io_bind, send, getEtherSigner.
    by destruct (submit P _).
  - by rewrite bool_decide_eq_true_2 by lia.
Qed.

(** C3: validation goes through the invoices one by one and in order;
    an unregistered token records [TOKEN_NOT_IN_CONTRACT] and the
    balance and the allowance of that invoice are not looked at; for a
    registered token both are, and each records its error; the errors
    come in invoice order, then existence, balance, allowance. The
    list that [processTokenInvoices] returns when there is an error is
    that list. *)
Theorem C3_validation_order batch w :
  processTokenInvoices_loop config P [] [] batch w = (spec_validate config P batch, w) ∧
  ∀ errors invoices,
    spec_validate config P batch = Resolved (errors, invoices) → errors ≠ [] →
    processTokenInvoices config P batch w = (Resolved errors, w).
Proof.
  split.
  - rewrite loop_spec.
    by destruct (spec_validate config P batch) as [[errors invoices] | e].
  - intros errors invoices Hval Herr.
    unfold processTokenInvoices, mbind at 1, io_bind. rewrite loop_spec, Hval.
    cbn [app]. destruct errors; [done |]. cbn [length].
    by rewrite bool_decide_eq_true_2 by lia.
Qed.

(** C4: both checks are strict. [checkWalletTokenBalance] answers
    whether the balance read for the wallet is greater than the amount,
    [checkWalletAllowance] whether the allowance the wallet gave to the
    executor contract is; equal is [false]. *)
Theorem C4_strict_comparison walletAddress tokenAddress amount w :
  checkWalletTokenBalance P walletAddress tokenAddress amount w =
    (match balanceOf P tokenAddress walletAddress with
     | Resolved balance => Resolved (bool_decide (balance > amount))
     | Rejected e => Rejected e
     end, w) ∧
  checkWalletAllowance config P walletAddress tokenAddress amount w =
    (match allowance P tokenAddress walletAddress (Config.contract config) with
     | Resolved allowance => Resolved (bool_decide (allowance > amount))
     | Rejected e => Rejected e
     end, w).
Proof.
  unfold checkWalletTokenBalance, checkWalletAllowance, await, mbind, io_bind.
  split.
  - destruct (balanceOf P _ _) as [balance | e]; [| done]. cbn. do 2 f_equal.
    destruct (Z.ltb_spec amount balance);
      [by rewrite bool_decide_eq_true_2 by lia
      | by rewrite bool_decide_eq_false_2 by lia].
  - destruct (allowance P _ _ _) as [allowance | e]; [| done]. cbn. do 2 f_equal.
    destruct (Z.ltb_spec amount allowance);
      [by rewrite bool_decide_eq_true_2 by lia
      | by rewrite bool_decide_eq_false_2 by lia].
Qed.

(** C9: [processInvoices] adds up the invoice amounts and reads the
    balance the executor contract holds; when the sum is greater than
    that balance plus the funding amount it throws "Insufficient funds
    in contract to process invoices" and nothing has been sent to the
    ledger; otherwise it reads the owner's nonce and sends
    [etherBulkTransferAmounts] with the invoices and the funding amount
    as value, once. *)
Theorem C9_fund_gate amount sendingInvoices w :
  processInvoices config P amount sendingInvoices w =
    match getBalance P (Config.contract config) with
    | Rejected e => (Rejected e, w)
    | Resolved held =>
        if bool_decide (requested sendingInvoices > held + amount) then
          (Rejected "Insufficient funds in contract to process invoices", w)
        else
          let signer := signerAddress P (Config.ownerWallet config) in
          match getTransactionCount P signer "latest" with
          | Rejected e => (Rejected e, w)
          | Resolved nonce =>
              let tx := EtherBulkTransferAmounts signer sendingInvoices amount nonce in
              (submit P tx, w ++ [tx])
          end
    end.
Proof.
  unfold processInvoices, await, throw, send, getEtherSigner, mbind, io_bind.
  rewrite fold_left_requested, Z.add_0_l.
  destruct (getBalance P _) as [held | e]; [| done].
  destruct (Z.ltb_spec (held + amount) (requested sendingInvoices)).
  - by rewrite bool_decide_eq_true_2 by lia.
  - rewrite bool_decide_eq_false_2 by lia.
    by destruct (getTransactionCount P _ _).
Qed.

End Facts.

Import Fixtures.

Lemma C2_all_or_nothing_witness :
  processTokenInvoices demo_config demo_provider [invoice_good] [] =
    (Resolved [],
     [Erc20sMultiOriginBulkTransferAmounts "0xWallet1"
        [on_ledger demo_provider 1 invoice_good]]) ∧
  Forall2 (fun invoice p =>
             ∃ id, getTokenByAddress demo_provider
                     (SendingTokenInvoice.tokenAddress invoice) = Resolved id ∧
                   id ≠ 0 ∧ p = on_ledger demo_provider id invoice)
          [invoice_good] [on_ledger demo_provider 1 invoice_good].
Proof.
  destruct (C2_all_or_nothing demo_config demo_provider [invoice_good] [])
    as [Hrun Hfull].
  split; [rewrite Hrun; reflexivity | apply Hfull; reflexivity].
Defined.

Lemma C3_validation_order_witness :
  processTokenInvoices demo_config demo_provider
    [invoice_unknown; invoice_exact; invoice_good] [] =
    (Resolved [TOKEN_NOT_IN_CONTRACT invoice_unknown;
               INSUFFICIENT_BALANCE invoice_exact;
               INSUFFICIENT_ALLOWANCE invoice_exact], []).
Proof.
  apply (proj2 (C3_validation_order demo_config demo_provider
                  [invoice_unknown; invoice_exact; invoice_good] []))
    with (invoices := [on_ledger demo_provider 2 invoice_exact;
                       on_ledger demo_provider 1 invoice_good]);
    [reflexivity | discriminate].
Defined.

(** An invoice for an unregistered token: one error, nothing sent. *)
Example unregistered_token_one_error :
  processTokenInvoices demo_config demo_provider [invoice_unknown] [] =
    (Resolved [ {| CustomError.code := "TOKEN_NOT_IN_CONTRACT";
                   CustomError.message := "Token 0xDAI is not in the contract." |} ],
     []).
Proof. reflexivity. Qed.

(** A balance equal to the amount is not enough. *)
Example balance_equal_is_false :
  checkWalletTokenBalance demo_provider "0xWallet8" "0xUSDC" 5 [] = (Resolved false, []) ∧
  checkWalletTokenBalance demo_provider "0xWallet8" "0xUSDC" 4 [] = (Resolved true, []).
Proof. split; reflexivity. Qed.

Example error_messages :
  CustomError.message (INSUFFICIENT_BALANCE invoice_exact)
    = "Insufficient balance in wallet 1 for token 0xUSDC." ∧
  CustomError.message (INSUFFICIENT_ALLOWANCE invoice_exact)
    = "Insufficient allowance for wallet 1 to contract.".
Proof. split; reflexivity. Qed.

(** The executor holds 30: a batch of 31 with no funding is refused
    before anything is sent; funded with 1 it is sent. *)
Example native_gate :
  let batch := [ {| SendingInvoice.amount := 10; SendingInvoice.receiver := "0xR1" |};
                 {| SendingInvoice.amount := 21; SendingInvoice.receiver := "0xR2" |} ] in
  processInvoices demo_config demo_provider 0 batch [] =
    (Rejected "Insufficient funds in contract to process invoices", []) ∧
  processInvoices demo_config demo_provider 1 batch [] =
    (Resolved tt, [EtherBulkTransferAmounts "0xWallet1" batch 1 7]).
Proof. split; reflexivity. Qed.

End OrchestratorFacts.

(** ** Native-coin path: what a batch that goes through does *)

Module NativeMore.
Import Contract ContractMore NativeFacts.

Lemma balance_move bal from to amount x :
  balance (move bal from to amount) x =
  balance bal x - (if bool_decide (x = from) then amount else 0)
                + (if bool_decide (x = to) then amount else 0).
Proof.
  unfold move, balance.
  repeat case_bool_decide; subst;
    repeat (rewrite ?lookup_insert_eq; rewrite ?lookup_insert_ne by done; cbn [default]);
    unfold id; lia.
Qed.

Lemma transfer_ok this accepts to amount m :
  amount ≤ balance (ether m) this → takes this accepts to = true →
  transfer this accepts to amount m =
    (Ok tt, {| ether := move (ether m) this to amount; sent := sent m ++ [(to, amount)] |}).
Proof.
  intros Hfunds Htakes. unfold transfer, takes in *.
  destruct (Z.ltb_spec (balance (ether m) this) amount); [lia |].
  by rewrite Htakes.
Qed.

Lemma transfer_inv this accepts to amount m m' :
  transfer this accepts to amount m = (Ok tt, m') →
  takes this accepts to = true ∧ amount ≤ balance (ether m) this ∧
  m' = {| ether := move (ether m) this to amount; sent := sent m ++ [(to, amount)] |}.
Proof.
  unfold transfer, takes.
  destruct (Z.ltb_spec (balance (ether m) this) amount); [done |].
  destruct ((to =? this) || accepts to); [| done].
  intros [= <-]. by repeat split.
Qed.

Lemma transfer_loop_cons this accepts i p rest m :
  transfer_loop this accepts i (p :: rest) m =
  match transfer this accepts (InvoiceParams.receiver p) (InvoiceParams.amount p) m with
  | (Revert f, m') => (Revert f, m')
  | (Ok _, m') =>
      match checked_incr UINT8_MAX i with
      | Revert f => (Revert f, m')
      | Ok i' => transfer_loop this accepts i' rest m'
      end
  end.
Proof.
  cbn [transfer_loop]. unfold mbind, exec_bind, lift.
  destruct (transfer _ _ _ _ _) as [[[] | f] m']; [| done].
  by destruct (checked_incr UINT8_MAX i).
Qed.

(** Balances after the sends of [params], one after the other. *)
Lemma pay_all_balance this params bal x :
  balance (foldl (fun b p => move b this (InvoiceParams.receiver p) (InvoiceParams.amount p))
             bal params) x =
  balance bal x + paid_to x params
    - (if bool_decide (x = this) then total_amount params else 0).
Proof.
  revert bal. induction params as [| p rest IH]; intros bal;
    cbn [foldl paid_to]; rewrite ?total_amount_cons, ?total_amount_nil.
  - case_bool_decide; lia.
  - rewrite IH, balance_move.
    rewrite (bool_decide_ext (x = InvoiceParams.receiver p) (InvoiceParams.receiver p = x))
      by done.
    repeat case_bool_decide; lia.
Qed.

Lemma transfer_loop_ok this accepts i rest m :
  0 ≤ i → i + Z.of_nat (length rest) ≤ 255 →
  Forall (fun p => 0 ≤ InvoiceParams.amount p) rest →
  Forall (fun p => takes this accepts (InvoiceParams.receiver p) = true) rest →
  total_amount rest ≤ balance (ether m) this →
  transfer_loop this accepts i rest m =
    (Ok tt,
     {| ether := foldl (fun b p => move b this (InvoiceParams.receiver p)
                                     (InvoiceParams.amount p)) (ether m) rest;
        sent := sent m ++ sends_of rest |}).
Proof.
  revert i m. induction rest as [| p rest IH]; intros i m Hi Hlen Hpos Htakes Hfunds.
  - cbn. rewrite app_nil_r. by destruct m.
  - apply Forall_cons in Hpos as [Hp Hpos]. apply Forall_cons in Htakes as [Ht Htakes].
    rewrite total_amount_cons in Hfunds. cbn [length] in Hlen.
    assert (0 ≤ total_amount rest).
    { clear -Hpos. induction Hpos; rewrite ?total_amount_cons, ?total_amount_nil; lia. }
    rewrite transfer_loop_cons, transfer_ok by (done || lia).
    rewrite checked_incr_ok by (unfold UINT8_MAX; lia).
    rewrite IH; cbn [ether sent]; try done; try lia.
    + cbn [foldl sends_of fmap list_fmap]. by rewrite <- app_assoc.
    + rewrite balance_move. repeat case_bool_decide; lia.
Qed.

Lemma transfer_loop_inv this accepts i rest m m' :
  transfer_loop this accepts i rest m = (Ok tt, m') →
  Forall (fun p => takes this accepts (InvoiceParams.receiver p) = true) rest ∧
  ether m' = foldl (fun b p => move b this (InvoiceParams.receiver p)
                                 (InvoiceParams.amount p)) (ether m) rest ∧
  sent m' = sent m ++ sends_of rest.
Proof.
  revert i m. induction rest as [| p rest IH]; intros i m.
  - cbn. intros [= <-]. by rewrite app_nil_r.
  - rewrite transfer_loop_cons.
    destruct (transfer _ _ _ _ _) as [[[] | f] m1] eqn:Hsend; [| done].
    apply transfer_inv in Hsend as (Ht & _ & ->).
    destruct (checked_incr UINT8_MAX i) as [i' | f]; [| done].
    intros (Hrest & -> & ->)%IH. cbn [ether sent].
    split; [by constructor |]. split; [done |].
    cbn [sends_of fmap list_fmap]. by rewrite <- app_assoc.
Qed.

(** X: a native batch that meets the conditions of the code goes through
    and pays exactly what it says. When the owner calls with at most 255
    invoices, every receiver takes its send and the amounts sum to no more
    than the contract holds during the call, the transaction succeeds, the
    sends are those of the invoices in order, and every account ends with
    what it had, plus what the batch pays to it, the contract having gained
    the attached value and lost the total, the caller having lost the
    attached value. *)
Theorem native_batch_pays this accepts s bal msg_sender msg_value params :
  msg_sender = _owner s → msg_value ≤ balance bal msg_sender →
  (length params ≤ 255)%nat →
  Forall (fun p => 0 ≤ InvoiceParams.amount p) params →
  Forall (fun p => takes this accepts (InvoiceParams.receiver p) = true) params →
  total_amount params ≤ UINT256_MAX →
  total_amount params ≤ held_at_call this bal msg_sender msg_value →
  ∃ bal',
    transact_etherBulkTransferAmounts this accepts s bal msg_sender msg_value params
      = (bal', Ok tt, sends_of params) ∧
    ∀ x, balance bal' x =
      balance bal x + paid_to x params
      + (if bool_decide (x = this) then msg_value - total_amount params else 0)
      - (if bool_decide (x = msg_sender) then msg_value else 0).
Proof.
  intros -> Hvalue Hlen Hpos Htakes Hfit Hfunds.
  unfold transact_etherBulkTransferAmounts, held_at_call in *.
  destruct (Z.ltb_spec (balance bal (_owner s)) msg_value); [lia |].
  rewrite etherBulkTransferAmounts_unfold, onlyOwner_owner.
  rewrite sum_loop_ok by (done || lia). cbn [ether].
  destruct (Z.leb_spec (0 + total_amount params)
              (balance (move bal (_owner s) this msg_value) this)); [| lia].
  rewrite transfer_loop_ok by (done || cbn [ether]; lia). cbn [ether sent app].
  eexists. split; [reflexivity |].
  intros x. rewrite pay_all_balance, balance_move. repeat case_bool_decide; lia.
Qed.

Lemma native_batch_pays_witness :
  ∃ bal',
    transact_etherBulkTransferAmounts 100 (fun _ => true) (deployed 9)
      {[ 100 := 25; 9 := 7 ]} 9 5
      [ {| InvoiceParams.receiver := 61; InvoiceParams.amount := 10 |};
        {| InvoiceParams.receiver := 62; InvoiceParams.amount := 20 |} ]
      = (bal', Ok tt, [(61, 10); (62, 20)]) ∧
    balance bal' 61 = 10 ∧ balance bal' 62 = 20 ∧ balance bal' 100 = 0 ∧
    balance bal' 9 = 2.
Proof.
  destruct (native_batch_pays 100 (fun _ => true) (deployed 9) {[ 100 := 25; 9 := 7 ]} 9 5
              [ {| InvoiceParams.receiver := 61; InvoiceParams.amount := 10 |};
                {| InvoiceParams.receiver := 62; InvoiceParams.amount := 20 |} ])
    as (bal' & Hrun & Hbal).
  - reflexivity.
  - vm_compute. discriminate.
  - cbn. lia.
  - repeat constructor; cbn; lia.
  - repeat constructor.
  - vm_compute. discriminate.
  - vm_compute. discriminate.
  - exists bal'. split; [exact Hrun |].
    rewrite !Hbal. repeat split; vm_compute; reflexivity.
Defined.

(** X: a native batch never goes through otherwise. A transaction that
    succeeded was sent by the owner, had at most 255 invoices, asked in
    total for no more than the contract held during the call, every
    receiver took its send, all the sends of the batch were made in order,
    and the balances are the ones the sends produce. *)
Theorem native_batch_success_inv this accepts s bal msg_sender msg_value params bal' made :
  transact_etherBulkTransferAmounts this accepts s bal msg_sender msg_value params
    = (bal', Ok tt, made) →
  msg_sender = _owner s ∧ msg_value ≤ balance bal msg_sender ∧
  (length params ≤ 255)%nat ∧
  total_amount params ≤ held_at_call this bal msg_sender msg_value ∧
  Forall (fun p => takes this accepts (InvoiceParams.receiver p) = true) params ∧
  made = sends_of params ∧
  ∀ x, balance bal' x =
    balance bal x + paid_to x params
    + (if bool_decide (x = this) then msg_value - total_amount params else 0)
    - (if bool_decide (x = msg_sender) then msg_value else 0).
Proof.
  unfold transact_etherBulkTransferAmounts, held_at_call.
  destruct (Z.ltb_spec (balance bal msg_sender) msg_value); [done |].
  rewrite etherBulkTransferAmounts_unfold. unfold onlyOwner.
  case_bool_decide as Hown; cbn [require]; [| done].
  destruct (decide (length params ≤ 255)%nat) as [Hlen | Hlong];
    [| by rewrite sum_loop_long by lia].
  destruct (sum_loop 0 params 0) as [t | f] eqn:Hsum; [| done].
  apply sum_loop_sound in Hsum as ->. cbn [ether].
  destruct (Z.leb_spec (0 + total_amount params)
              (balance (move bal msg_sender this msg_value) this)); [| done].
  destruct (transfer_loop this accepts 0 params _) as [[[] | f] m'] eqn:Hloop; [| done].
  apply transfer_loop_inv in Hloop as (Htakes & Hether & Hsent).
  cbn [ether sent app] in *. intros [= <- <-].
  repeat split; try done; try lia.
  intros x. rewrite Hether, pay_all_balance, balance_move.
  repeat case_bool_decide; lia.
Qed.

Lemma native_batch_success_inv_witness :
  (length [ {| InvoiceParams.receiver := 61; InvoiceParams.amount := 10 |} ] ≤ 255)%nat ∧
  total_amount [ {| InvoiceParams.receiver := 61; InvoiceParams.amount := 10 |} ]
    ≤ held_at_call 100 {[ 100 := 30 ]} 9 0.
Proof.
  destruct (native_batch_success_inv 100 (fun _ => true) (deployed 9) {[ 100 := 30 ]} 9 0
              [ {| InvoiceParams.receiver := 61; InvoiceParams.amount := 10 |} ]
              (move (move {[ 100 := 30 ]} 9 100 0) 100 61 10) [(61, 10)])
    as (_ & _ & Hlen & Hfunds & _).
  - vm_compute. reflexivity.
  - split; [exact Hlen | exact Hfunds].
Defined.

Lemma transfer_ext this accepts to amount m1 m2 :
  same_funds m1 m2 →
  (transfer this accepts to amount m1).1 = (transfer this accepts to amount m2).1 ∧
  same_funds (transfer this accepts to amount m1).2 (transfer this accepts to amount m2).2.
Proof.
  intros [Hsent Hbal]. unfold transfer. rewrite Hsent, (Hbal this).
  destruct (balance (ether m2) this <? amount); [by repeat split |].
  destruct ((to =? this) || accepts to); [| by repeat split].
  split; [done |]. split; [done |]. cbn [ether snd].
  intros x. by rewrite !balance_move, Hbal.
Qed.

Lemma transfer_loop_ext this accepts i rest m1 m2 :
  same_funds m1 m2 →
  (transfer_loop this accepts i rest m1).1 = (transfer_loop this accepts i rest m2).1 ∧
  same_funds (transfer_loop this accepts i rest m1).2 (transfer_loop this accepts i rest m2).2.
Proof.
  revert i m1 m2. induction rest as [| p rest IH]; intros i m1 m2 Hsame; [done |].
  rewrite !transfer_loop_cons.
  destruct (transfer_ext this accepts (InvoiceParams.receiver p) (InvoiceParams.amount p)
              m1 m2 Hsame) as [Hstatus Hnext].
  destruct (transfer this accepts _ _ m1) as [r1 n1], (transfer this accepts _ _ m2) as [r2 n2].
  cbn [fst snd] in *. subst r2.
  destruct r1 as [[] | f]; [| done].
  destruct (checked_incr UINT8_MAX i); [by apply IH | done].
Qed.

Lemma etherBulkTransferAmounts_ext this accepts s msg_sender params m1 m2 :
  same_funds m1 m2 →
  (etherBulkTransferAmounts this accepts s msg_sender params m1).1 =
  (etherBulkTransferAmounts this accepts s msg_sender params m2).1 ∧
  same_funds (etherBulkTransferAmounts this accepts s msg_sender params m1).2
             (etherBulkTransferAmounts this accepts s msg_sender params m2).2.
Proof.
  intros Hsame. rewrite !etherBulkTransferAmounts_unfold.
  destruct (onlyOwner s msg_sender); [| done].
  destruct (sum_loop 0 params 0); [| done].
  destruct Hsame as [Hsent Hbal]. rewrite (Hbal this).
  destruct (_ <=? _); [by apply transfer_loop_ext | done].
Qed.

Lemma sum_loop_failure i rest acc f :
  sum_loop i rest acc = Revert f → f = Panic OVERFLOW.
Proof.
  revert i acc. induction rest as [| p rest IH]; intros i acc; cbn [sum_loop]; [done |].
  unfold checked_add, checked_incr.
  destruct (UINT256_MAX <? acc + InvoiceParams.amount p); [by intros [= <-] |].
  destruct (UINT8_MAX <? i + 1); [by intros [= <-] |]. cbn. apply IH.
Qed.

Lemma transfer_loop_failure this accepts i rest m f m' :
  transfer_loop this accepts i rest m = (Revert f, m') →
  f = SendFailed ∨ f = Panic OVERFLOW.
Proof.
  revert i m. induction rest as [| p rest IH]; intros i m; [done |].
  rewrite transfer_loop_cons. unfold transfer at 1.
  destruct (balance (ether m) this <? InvoiceParams.amount p);
    [intros [= <- _]; by left |].
  destruct ((InvoiceParams.receiver p =? this) || accepts (InvoiceParams.receiver p));
    [| intros [= <- _]; by left].
  unfold checked_incr. destruct (UINT8_MAX <? i + 1); [intros [= <- _]; by right |].
  apply IH.
Qed.

(** A batch that the contract can pay never fails for lack of funds. *)
Lemma funded_never_insufficient this accepts s msg_sender params m f m' :
  total_amount params ≤ balance (ether m) this →
  etherBulkTransferAmounts this accepts s msg_sender params m = (Revert f, m') →
  f ≠ INSUFFICIENT_FUNDS.
Proof.
  intros Hfunds. rewrite etherBulkTransferAmounts_unfold. unfold onlyOwner.
  case_bool_decide; cbn [require]; [| by intros [= <- _]].
  destruct (sum_loop 0 params 0) as [t | f0] eqn:Hsum.
  - apply sum_loop_sound in Hsum as ->.
    destruct (Z.leb_spec (0 + total_amount params) (balance (ether m) this)); [| lia].
    by intros [-> | ->]%transfer_loop_failure.
  - apply sum_loop_failure in Hsum as ->. by intros [= <- _].
Qed.

(** X: funding a batch by a deposit made before the call or by value
    attached to the call gives the same run: the same status and the same
    sends, and on success the same balances. The two differ when the batch
    reverts: the attached value goes back to the caller, the deposit stays
    with the contract. *)
Theorem funding_by_deposit_or_value this accepts s bal msg_sender msg_value params :
  0 ≤ msg_value ≤ balance bal msg_sender →
  let '(bal1, status1, made1) :=
    transact_etherBulkTransferAmounts this accepts s bal msg_sender msg_value params in
  let deposited := (transact_receive this bal msg_sender msg_value).1 in
  let '(bal2, status2, made2) :=
    transact_etherBulkTransferAmounts this accepts s deposited msg_sender 0 params in
  status1 = status2 ∧ made1 = made2 ∧
  (is_ok status1 = true → ∀ x, balance bal1 x = balance bal2 x) ∧
  (is_ok status1 = false →
     bal1 = bal ∧ bal2 = move bal msg_sender this msg_value).
Proof.
  intros Hvalue. unfold transact_receive, transact_etherBulkTransferAmounts.
  destruct (Z.ltb_spec (balance bal msg_sender) msg_value); [lia |]. cbn [fst].
  set (funded := move bal msg_sender this msg_value).
  destruct (Z.ltb_spec (balance funded msg_sender) 0) as [Hneg | _].
  { unfold funded in Hneg. rewrite balance_move in Hneg.
    repeat case_bool_decide; lia. }
  destruct (etherBulkTransferAmounts_ext this accepts s msg_sender params
              {| ether := funded; sent := [] |}
              {| ether := move funded msg_sender this 0; sent := [] |})
    as [Hstatus [Hsent Hbal]].
  { split; [done |]. intros x. cbn [ether]. rewrite (balance_move funded).
    repeat case_bool_decide; lia. }
  destruct (etherBulkTransferAmounts this accepts s msg_sender params
              {| ether := funded; sent := [] |}) as [r1 m1].
  destruct (etherBulkTransferAmounts this accepts s msg_sender params
              {| ether := move funded msg_sender this 0; sent := [] |}) as [r2 m2].
  cbn [fst snd] in *. subst r2. destruct r1 as [[] | f]; by repeat split.
Qed.

Lemma funding_by_deposit_or_value_witness :
  let params := [ {| InvoiceParams.receiver := 61; InvoiceParams.amount := 10 |} ] in
  (transact_etherBulkTransferAmounts 100 (fun _ => true) (deployed 9)
     {[ 9 := 10 ]} 9 10 params).1.2 =
  (transact_etherBulkTransferAmounts 100 (fun _ => true) (deployed 9)
     (transact_receive 100 {[ 9 := 10 ]} 9 10).1 9 0 params).1.2.
Proof.
  intros params.
  pose proof (funding_by_deposit_or_value 100 (fun _ => true) (deployed 9)
                {[ 9 := 10 ]} 9 10 params) as H.
  cbv zeta in H.
  destruct (transact_etherBulkTransferAmounts 100 (fun _ => true) (deployed 9)
              {[ 9 := 10 ]} 9 10 params) as [[bal1 status1] made1].
  destruct (transact_etherBulkTransferAmounts 100 (fun _ => true) (deployed 9)
              (transact_receive 100 {[ 9 := 10 ]} 9 10).1 9 0 params)
    as [[bal2 status2] made2].
  destruct H as [Hstatus _]; [vm_compute; split; discriminate | exact Hstatus].
Defined.

End NativeMore.

(** ** Registry: what the lookups and the registrations guarantee *)

Module RegistryMore.
Import Contract ContractMore Registry.

Lemma loop_sound s a k fuel i :
  0 ≤ i ≤ 65535 → getTokenByAddress_loop s a fuel i = Ok k → k ≠ 0 →
  i ≤ k ∧ k < tokenId s ∧ k ≤ 65535 ∧ slot (tokens s) k = a ∧
  ∀ j, i ≤ j < k → slot (tokens s) j ≠ a.
Proof.
  revert i. induction fuel as [| fuel IH]; intros i Hi; rewrite loop_step;
    unfold Counters.current;
    (destruct (Z.ltb_spec i (tokenId s)) as [Hlt | Hge]; [| by intros [= <-]]);
    (destruct (Z.eqb_spec (slot (tokens s) i) a) as [Heq | Hne];
       [intros [= <-] _; repeat split; try done; try lia; intros j Hj; lia |]).
  - unfold checked_incr. by destruct (UINT16_MAX <? i + 1).
  - destruct (decide (i = 65535)) as [-> | Hi']; [by rewrite checked_incr_overflow |].
    rewrite checked_incr_ok by (unfold UINT16_MAX; lia). cbn.
    intros Hrun Hk. destruct (IH (i + 1)) as (Hik & Hkt & Hk16 & Hat & Hno);
      [lia | done | done |].
    repeat split; try done; try lia.
    intros j Hj. destruct (decide (j = i)) as [-> | Hji]; [done | apply Hno; lia].
Qed.

(** X: what [getTokenByAddress] returns is right. A nonzero id [k] that
    it returns is below the counter, the slot [k] holds the address that
    was asked for, no slot before it does, and [getTokenById k] gives the
    address back. *)
Theorem getTokenByAddress_sound s a k :
  getTokenByAddress s a = Ok k → k ≠ 0 →
  0 < k < tokenId s ∧ k ≤ 65535 ∧ slot (tokens s) k = a ∧
  (∀ j, 0 ≤ j < k → slot (tokens s) j ≠ a) ∧
  getTokenById s k = Ok a.
Proof.
  intros Hrun Hk. unfold getTokenByAddress in Hrun.
  destruct (loop_sound s a k _ 0 ltac:(lia) Hrun Hk) as (H0 & Hkt & Hk16 & Hat & Hno).
  repeat split; try done; try lia.
  unfold getTokenById. destruct (Z.eqb_spec k 0); [done |]. cbn. by rewrite Hat.
Qed.

Lemma getTokenByAddress_sound_witness :
  getTokenById (register_all (deployed 9) [77; 78]).1 1 = Ok 77.
Proof.
  apply (getTokenByAddress_sound (register_all (deployed 9) [77; 78]).1 77 1);
    [vm_compute; reflexivity | lia].
Defined.

Lemma ids_sequential_witness :
  (register_all (deployed 9) [77; 78]).2 = receipts 0 2 ∧
  getTokenById (register_all (deployed 9) [77; 78]).1 2 = Ok 78.
Proof.
  destruct (RegistryClaims.ids_sequential 9 [77; 78]) as [Hreceipts Hlookup];
    [cbn; lia |].
  split; [exact Hreceipts | exact (Hlookup 1%nat 78 eq_refl)].
Defined.

Lemma getTokenByAddress_earlier_witness :
  getTokenByAddress (register_all (deployed 9) [77; 78]).1 77 = Ok 1.
Proof.
  apply (RegistryClaims.getTokenByAddress_earlier 9 [77; 78] 0 77);
    [cbn; lia | lia | reflexivity | intros j b Hj; lia | cbn; lia].
Defined.

(** X: the zero address can be registered but is never reported as
    registered: whatever the registrations were, up to 65535 of them,
    [getTokenByAddress] answers the sentinel 0 for [address(0)]. *)
Theorem zero_address_not_found o ts :
  Z.of_nat (length ts) ≤ 65535 →
  Forall (fun r => is_ok r = true) (register_all (deployed o) ts).2 ∧
  getTokenByAddress (register_all (deployed o) ts).1 0 = Ok 0.
Proof.
  intros Hlen. destruct (register_all_deployed o ts Hlen) as (s & -> & Hf).
  cbn [fst snd]. split; [apply RegistryClaims.receipts_ok |].
  unfold getTokenByAddress. rewrite loop_step.
  destruct (0 <? Counters.current (tokenId s)); [| done].
  by rewrite (filled_slot_out s o ts 0) by (done || lia).
Qed.

Lemma zero_address_not_found_witness :
  Forall (fun r => is_ok r = true) (register_all (deployed 9) [77; 0; 78]).2 ∧
  getTokenByAddress (register_all (deployed 9) [77; 0; 78]).1 0 = Ok 0.
Proof. apply (zero_address_not_found 9 [77; 0; 78]). cbn. lia. Defined.

Lemma transact_addToken_frame s msg_sender token k :
  slot (tokens s) k ≠ 0 →
  slot (tokens (transact_addToken s msg_sender token).1) k = slot (tokens s) k.
Proof.
  intros Hset. unfold transact_addToken, addToken.
  destruct (onlyOwner s msg_sender) as [[] | f]; [| done]. cbn.
  destruct (Z.eqb_spec (slot (tokens s)
              (to_uint16 (Counters.current (Counters.increment (tokenId s))))) 0)
    as [Hfree | Htaken]; [| done].
  cbn. unfold slot at 1. rewrite lookup_insert_ne; [done |].
  intros <-. done.
Qed.

(** X: a registered token is never replaced. Whatever [addToken] calls
    follow, by whatever callers, a slot that holds a nonzero address keeps
    it. *)
Theorem registered_slot_is_kept s calls k :
  slot (tokens s) k ≠ 0 →
  slot (tokens (attempt_all s calls)) k = slot (tokens s) k.
Proof.
  revert s. induction calls as [| [msg_sender token] calls IH]; intros s Hset; [done |].
  cbn [attempt_all].
  pose proof (transact_addToken_frame s msg_sender token k Hset) as Hstep.
  rewrite IH; [done | by rewrite Hstep].
Qed.

Lemma registered_slot_is_kept_witness :
  slot (tokens (attempt_all (register_all (deployed 9) [77]).1 [(9, 78); (8, 79); (9, 80)])) 1
  = slot (tokens (register_all (deployed 9) [77]).1) 1.
Proof.
  apply (registered_slot_is_kept (register_all (deployed 9) [77]).1). vm_compute. discriminate.
Defined.

(** X: a registry whose next slot is taken is stuck. When the slot that
    the next registration would select holds a nonzero address, every
    further [addToken], by anyone and for any address, reverts and the
    storage stays as it is: the counter does not move, so the same slot is
    selected again. *)
Theorem registry_stuck s calls :
  slot (tokens s) (to_uint16 (Counters.current (Counters.increment (tokenId s)))) ≠ 0 →
  attempt_all s calls = s ∧
  ∀ msg_sender token, is_ok (addToken s msg_sender token) = false.
Proof.
  intros Htaken.
  assert (∀ msg_sender token, is_ok (addToken s msg_sender token) = false) as Hfail.
  { intros msg_sender token. unfold addToken.
    destruct (onlyOwner s msg_sender) as [[] | f]; [| done]. cbn.
    by destruct (Z.eqb_spec (slot (tokens s)
         (to_uint16 (Counters.current (Counters.increment (tokenId s))))) 0). }
  split; [| done].
  induction calls as [| [msg_sender token] calls IH]; [done |].
  cbn [attempt_all]. unfold transact_addToken.
  specialize (Hfail msg_sender token).
  by destruct (addToken s msg_sender token) as [[s' evs] | f].
Qed.

Lemma registry_stuck_witness :
  let s := {| _owner := 9; tokenId := 65536; tokens := {[ 0 := 6; 1 := 5 ]} |} in
  attempt_all s [(9, 77); (9, 78)] = s.
Proof.
  intros s. apply (registry_stuck s). vm_compute. discriminate.
Defined.

(** X: only the owner gets through. A caller that is not the owner makes
    [addToken] and both batch entry points revert with the ownership error,
    before a slot is written, a send made or a token called. *)
Theorem only_owner {E} `{IERC20 E} this accepts s bal (e : E) msg_sender token
    msg_value native_params token_params :
  msg_sender ≠ _owner s →
  transact_addToken s msg_sender token
    = (s, Revert (Error "Ownable: caller is not the owner")) ∧
  (msg_value ≤ balance bal msg_sender →
   transact_etherBulkTransferAmounts this accepts s bal msg_sender msg_value native_params
     = (bal, Revert (Error "Ownable: caller is not the owner"), [])) ∧
  transact_erc20sMultiOriginBulkTransferAmounts this s e msg_sender token_params
    = (e, Revert (Error "Ownable: caller is not the owner"), []).
Proof.
  intros Hother.
  assert (onlyOwner s msg_sender = Revert (Error "Ownable: caller is not the owner"))
    as Hgate.
  { unfold onlyOwner. by rewrite bool_decide_eq_false_2 by congruence. }
  repeat split.
  - unfold transact_addToken, addToken. by rewrite Hgate.
  - intros Hvalue. unfold transact_etherBulkTransferAmounts.
    destruct (Z.ltb_spec (balance bal msg_sender) msg_value); [lia |].
    by rewrite NativeFacts.etherBulkTransferAmounts_unfold, Hgate.
  - unfold transact_erc20sMultiOriginBulkTransferAmounts,
      erc20sMultiOriginBulkTransferAmounts, mbind, exec_bind, lift.
    by rewrite Hgate.
Qed.

Lemma only_owner_witness :
  transact_addToken (deployed 9) 8 77
    = (deployed 9, Revert (Error "Ownable: caller is not the owner")).
Proof.
  destruct (only_owner 100 (fun _ => true) (deployed 9) ∅ ContractFixtures.two_tokens
              8 77 0 [] []) as [Hadd _]; [cbn; lia | exact Hadd].
Defined.

End RegistryMore.

(** ** Token path: batches that go through, and the size a batch can have *)

Module TokenMore.
Import Contract TokenFacts.

Section Generic.
Context {E : Type} `{IERC20 E}.
Variable this : address.

Lemma token_loop_long s i rest m :
  0 ≤ i ≤ 65535 → 65536 ≤ i + Z.of_nat (length rest) →
  is_ok (token_loop this s i rest m).1 = false.
Proof.
  revert i m. induction rest as [| p rest IH]; intros i m Hi Hlen; cbn [length] in Hlen.
  - lia.
  - rewrite token_loop_cons.
    destruct (transferFrom _ _ _ _ _ _) as [[b e'] | f]; [| done]. cbn zeta.
    destruct (decide (i = 65535)) as [-> | Hi']; [by rewrite checked_incr_overflow |].
    rewrite checked_incr_ok by (unfold UINT16_MAX; lia).
    apply IH; lia.
Qed.

Lemma token_loop_ok s i rest m e' :
  0 ≤ i → i + Z.of_nat (length rest) ≤ 65535 →
  apply_calls this (erc20 m) (call_of s <$> rest) = Ok e' →
  token_loop this s i rest m =
    (Ok tt, {| erc20 := e'; calls := calls m ++ (call_of s <$> rest) |}).
Proof.
  revert i m. induction rest as [| p rest IH]; intros i m Hi Hlen Happ;
    cbn [length] in Hlen.
  - cbn in *. rewrite app_nil_r. injection Happ as <-. by destruct m.
  - rewrite token_loop_cons.
    change (apply_calls this (erc20 m) (call_of s <$> p :: rest)) with
      (match transferFrom (slot (tokens s) (TokenInvoiceParams.token p)) this
               (TokenInvoiceParams.sender p) (TokenInvoiceParams.receiver p)
               (TokenInvoiceParams.amount p) (erc20 m) with
       | Ok (_, e1) => apply_calls this e1 (call_of s <$> rest)
       | Revert f => Revert f
       end) in Happ.
    destruct (transferFrom _ _ _ _ _ _) as [[b e1] | f]; [| done]. cbn zeta.
    rewrite checked_incr_ok by (unfold UINT16_MAX; lia).
    rewrite (IH (i + 1) {| erc20 := e1; calls := calls m ++ [call_of s p] |}
               ltac:(lia) ltac:(lia) Happ). cbn [calls fmap list_fmap].
    by rewrite <- app_assoc.
Qed.

(** X: a token batch of 65536 invoices or more always reverts, whatever
    the tokens answer: the [uint16] loop counter cannot get past it. The
    token ledger is left as it was. *)
Theorem token_batch_cap s e msg_sender params :
  65536 ≤ Z.of_nat (length params) →
  ∃ f made,
    transact_erc20sMultiOriginBulkTransferAmounts this s e msg_sender params
      = (e, Revert f, made).
Proof.
  intros Hlen.
  unfold transact_erc20sMultiOriginBulkTransferAmounts,
    erc20sMultiOriginBulkTransferAmounts, mbind, exec_bind, lift.
  destruct (onlyOwner s msg_sender) as [[] | f]; [| by eexists _, _].
  pose proof (token_loop_long s 0 params {| erc20 := e; calls := [] |}
                ltac:(lia) ltac:(lia)) as Hrev.
  destruct (token_loop this s 0 params _) as [[[] | f] m']; [done | by eexists _, _].
Qed.

(** X: a token batch goes through when every call does. When the owner
    sends at most 65535 invoices and the [transferFrom] calls they stand
    for, made one after the other, all return, the transaction succeeds,
    made exactly those calls, and leaves the token ledger they produce. *)
Theorem token_batch_goes_through s e e' params :
  Z.of_nat (length params) ≤ 65535 →
  apply_calls this e (call_of s <$> params) = Ok e' →
  transact_erc20sMultiOriginBulkTransferAmounts this s e (_owner s) params
    = (e', Ok tt, call_of s <$> params).
Proof.
  intros Hlen Happ.
  unfold transact_erc20sMultiOriginBulkTransferAmounts,
    erc20sMultiOriginBulkTransferAmounts, mbind, exec_bind, lift.
  rewrite NativeFacts.onlyOwner_owner.
  by rewrite (token_loop_ok s 0 params {| erc20 := e; calls := [] |} e') by (done || lia).
Qed.

End Generic.

Import PlainToken ContractFixtures.

Lemma token_batch_cap_witness :
  ∃ f made,
    transact_erc20sMultiOriginBulkTransferAmounts 100 two_registered Silent 9
      (replicate (Z.to_nat 65536) {| TokenInvoiceParams.token := 1;
         TokenInvoiceParams.receiver := 60; TokenInvoiceParams.sender := 50;
         TokenInvoiceParams.amount := 0 |})
      = (Silent, Revert f, made).
Proof.
  apply (token_batch_cap 100 two_registered Silent 9).
  rewrite length_replicate. lia.
Defined.

Lemma token_batch_goes_through_witness :
  ∃ e',
    transact_erc20sMultiOriginBulkTransferAmounts 100 two_registered two_tokens 9
      two_invoices
      = (e', Ok tt, [(1, 50, 60, 10); (2, 51, 61, 20)]) ∧
    balanceOf e' 1 50 = 0 ∧ balanceOf e' 1 60 = 10.
Proof.
  destruct (apply_calls 100 two_tokens (call_of two_registered <$> two_invoices))
    as [e' | f] eqn:Happ; [| vm_compute in Happ; discriminate].
  exists e'. split.
  - apply (token_batch_goes_through 100 two_registered two_tokens e' two_invoices);
      [cbn; lia | exact Happ].
  - vm_compute in Happ. injection Happ as <-. split; vm_compute; reflexivity.
Defined.

End TokenMore.

(** ** The private key as a hex string: nothing is lost *)

Module KeyHexFacts.
Import KeyHex.

Lemma append_assoc (s1 s2 s3 : string) : (s1 +:+ s2) +:+ s3 = s1 +:+ (s2 +:+ s3).
Proof.
  induction s1 as [| c s1 IH]; [done |].
  change (String c ((s1 +:+ s2) +:+ s3) = String c (s1 +:+ (s2 +:+ s3))). by f_equal.
Qed.

Lemma length_append (s1 s2 : string) :
  String.length (s1 +:+ s2) = (String.length s1 + String.length s2)%nat.
Proof.
  induction s1 as [| c s1 IH]; [done |].
  change (S (String.length (s1 +:+ s2)) = S (String.length s1 + String.length s2)).
  by f_equal.
Qed.

Lemma privateKeyHex_from data acc :
  fold_left (fun privateKey element => privateKey +:+ hexByte element) data acc
  = acc +:+ privateKeyHex data.
Proof.
  unfold privateKeyHex. revert acc. induction data as [| b data IH]; intros acc;
    cbn [fold_left].
  - induction acc as [| c acc IHacc]; [done |].
    change (String c acc = String c (acc +:+ "")). by f_equal.
  - rewrite (IH (acc +:+ hexByte b)), (IH ("" +:+ hexByte b)).
    change ("" +:+ hexByte b) with (hexByte b). by rewrite append_assoc.
Qed.

Lemma privateKeyHex_cons b data :
  privateKeyHex (b :: data) = hexByte b +:+ privateKeyHex data.
Proof. unfold privateKeyHex at 1. cbn [fold_left]. by rewrite privateKeyHex_from. Qed.

Lemma all_bytes_read_back : forallb reads_back (seqZ 0 256) = true.
Proof. vm_compute. reflexivity. Qed.

Lemma hexByte_two_digits b :
  0 ≤ b ≤ 255 →
  ∃ c1 c2, hexByte b = String c1 (String c2 EmptyString) ∧
           16 * digitValue c1 + digitValue c2 = b.
Proof.
  intros Hb. pose proof all_bytes_read_back as Hall.
  rewrite forallb_forall in Hall.
  assert (reads_back b = true) as Hok.
  { apply Hall, list_elem_of_In, elem_of_seqZ. lia. }
  unfold reads_back in Hok.
  destruct (hexByte b) as [| c1 [| c2 [| c3 rest]]]; try done.
  exists c1, c2. split; [done | lia].
Qed.

(** X: the hex string of the private key loses nothing. For key bytes
    (values 0 to 255) the string has two characters a byte, and reading
    it back two hex digits at a time gives the bytes again: the padding
    with "0" keeps different keys apart. *)
Theorem privateKeyHex_round_trip data :
  Forall (fun b => 0 ≤ b ≤ 255) data →
  String.length (privateKeyHex data) = (2 * length data)%nat ∧
  bytesOfHex (privateKeyHex data) = data.
Proof.
  induction 1 as [| b data Hb _ [IHlen IHread]]; [done |].
  rewrite privateKeyHex_cons.
  destruct (hexByte_two_digits b Hb) as (c1 & c2 & -> & Hval).
  split.
  - rewrite length_append, IHlen. cbn [String.length length]. lia.
  - change (bytesOfHex (String c1 (String c2 (privateKeyHex data))) = b :: data).
    cbn [bytesOfHex]. by rewrite Hval, IHread.
Qed.

Lemma privateKeyHex_round_trip_witness :
  String.length (privateKeyHex [0; 10; 255; 16]) = 8%nat ∧
  bytesOfHex (privateKeyHex [0; 10; 255; 16]) = [0; 10; 255; 16].
Proof.
  apply (privateKeyHex_round_trip [0; 10; 255; 16]).
  repeat constructor; lia.
Defined.

Example privateKeyHex_padded : privateKeyHex [0; 10; 255; 16] = "000aff10".
Proof. reflexivity. Qed.

Example toString16_wide : toString16 4096 = "1000" ∧ hexByte 4096 = "1000".
Proof. split; vm_compute; reflexivity. Qed.

End KeyHexFacts.

(** ** The off-ledger module and the contract together *)

Module OrchestratorMore.
Import Orchestrator OrchestratorFacts Contract ContractMore.

Lemma requested_total sendingInvoices params :
  SendingInvoice.amount <$> sendingInvoices = InvoiceParams.amount <$> params →
  requested sendingInvoices = total_amount params.
Proof.
  revert params. induction sendingInvoices as [| invoice rest IH]; intros [| p params];
    cbn [fmap list_fmap]; try done.
  intros [= Hamount Hrest]. unfold requested, total_amount in *. cbn [foldr].
  by rewrite Hamount, (IH params Hrest).
Qed.

Lemma processInvoices_gate config P amount sendingInvoices w held :
  getBalance P (Config.contract config) = Resolved held →
  processInvoices config P amount sendingInvoices w =
    if bool_decide (requested sendingInvoices > held + amount) then
      (Rejected "Insufficient funds in contract to process invoices", w)
    else
      match getTransactionCount P (signerAddress P (Config.ownerWallet config)) "latest" with
      | Rejected e => (Rejected e, w)
      | Resolved nonce =>
          (submit P (EtherBulkTransferAmounts
                       (signerAddress P (Config.ownerWallet config))
                       sendingInvoices amount nonce),
           w ++ [EtherBulkTransferAmounts
                   (signerAddress P (Config.ownerWallet config))
                   sendingInvoices amount nonce])
      end.
Proof.
  intros Hheld.
  unfold processInvoices, await, throw, send, getEtherSigner, mbind, io_bind.
  rewrite fold_left_requested, Z.add_0_l, Hheld.
  destruct (Z.ltb_spec (held + amount) (requested sendingInvoices)).
  - by rewrite bool_decide_eq_true_2 by lia.
  - rewrite bool_decide_eq_false_2 by lia.
    by destruct (getTransactionCount P _ _).
Qed.

(** X: the gate of [processInvoices] is the funds check of the contract.
    When the balance read for the contract is the one it holds, and the
    call is sent with the funding amount as value, the batches that
    [processInvoices] refuses are those that [etherBulkTransferAmounts]
    reverts for lack of funds: a refused batch sends nothing and would
    have reverted without a send, with the "not enough funds" failure when
    the owner sends at most 255 invoices whose sum fits in a [uint256]; a
    batch that passes is sent, the contract never reverts it for lack of
    funds, and it goes through with all its sends when the owner sends at
    most 255 invoices to receivers that accept them. *)
Theorem gate_agrees_with_contract config P this accepts s bal msg_sender amount
    sendingInvoices params w :
  getBalance P (Config.contract config) = Resolved (balance bal this) →
  msg_sender ≠ this →
  SendingInvoice.amount <$> sendingInvoices = InvoiceParams.amount <$> params →
  (requested sendingInvoices > balance bal this + amount →
     processInvoices config P amount sendingInvoices w =
       (Rejected "Insufficient funds in contract to process invoices", w) ∧
     ∃ f, transact_etherBulkTransferAmounts this accepts s bal msg_sender amount params
            = (bal, Revert f, []) ∧
          (msg_sender = _owner s → amount ≤ balance bal msg_sender →
           (length params ≤ 255)%nat →
           Forall (fun p => 0 ≤ InvoiceParams.amount p) params →
           total_amount params ≤ UINT256_MAX →
           f = INSUFFICIENT_FUNDS)) ∧
  (requested sendingInvoices ≤ balance bal this + amount →
     total_amount params ≤ held_at_call this bal msg_sender amount ∧
     (∀ nonce,
       getTransactionCount P (signerAddress P (Config.ownerWallet config)) "latest"
         = Resolved nonce →
       processInvoices config P amount sendingInvoices w =
         (submit P (EtherBulkTransferAmounts (signerAddress P (Config.ownerWallet config))
                      sendingInvoices amount nonce),
          w ++ [EtherBulkTransferAmounts (signerAddress P (Config.ownerWallet config))
                  sendingInvoices amount nonce])) ∧
     (∀ bal' f made,
       transact_etherBulkTransferAmounts this accepts s bal msg_sender amount params
         = (bal', Revert f, made) →
       amount ≤ balance bal msg_sender →
       f ≠ INSUFFICIENT_FUNDS) ∧
     (msg_sender = _owner s → amount ≤ balance bal msg_sender →
      (length params ≤ 255)%nat →
      Forall (fun p => 0 ≤ InvoiceParams.amount p) params →
      Forall (fun p => takes this accepts (InvoiceParams.receiver p) = true) params →
      total_amount params ≤ UINT256_MAX →
      ∃ bal',
        transact_etherBulkTransferAmounts this accepts s bal msg_sender amount params
          = (bal', Ok tt, sends_of params))).
Proof.
  intros Hheld Hother Hamounts.
  rewrite (requested_total _ _ Hamounts).
  pose proof (NativeFacts.held_at_call_funded this bal msg_sender amount Hother) as Hcall.
  unfold held_at_call in Hcall.
  split.
  - intros Hlow. split.
    + rewrite (processInvoices_gate _ _ _ _ _ _ Hheld), (requested_total _ _ Hamounts).
      by rewrite bool_decide_eq_true_2 by lia.
    + unfold transact_etherBulkTransferAmounts.
      destruct (Z.ltb_spec (balance bal msg_sender) amount).
      { exists SendFailed. split; [done | lia]. }
      destruct (NativeFacts.underfunded_reverts this accepts s msg_sender params
                  {| ether := move bal msg_sender this amount; sent := [] |})
        as (f & Hrun); [cbn [ether]; lia |].
      rewrite Hrun. exists f. split; [done |].
      intros -> _ Hlen Hpos Hfit.
      rewrite NativeFacts.etherBulkTransferAmounts_unfold, NativeFacts.onlyOwner_owner in Hrun.
      rewrite NativeFacts.sum_loop_ok in Hrun by (done || lia). cbn [ether] in Hrun.
      destruct (Z.leb_spec (0 + total_amount params)
                  (balance (move bal (_owner s) this amount) this)) as [Hle | _];
        [lia | by inversion Hrun].
  - intros Hfunded. unfold held_at_call. split; [lia |]. split; [| split].
    + intros nonce Hnonce.
      rewrite (processInvoices_gate _ _ _ _ _ _ Hheld), (requested_total _ _ Hamounts), Hnonce.
      by rewrite bool_decide_eq_false_2 by lia.
    + intros bal' f made Hrev Hvalue. unfold transact_etherBulkTransferAmounts in Hrev.
      destruct (Z.ltb_spec (balance bal msg_sender) amount); [lia |].
      destruct (etherBulkTransferAmounts this accepts s msg_sender params _)
        as [[[] | f0] m'] eqn:Hrun; [done |].
      injection Hrev as _ <- _.
      eapply NativeMore.funded_never_insufficient; [| exact Hrun].
      cbn [ether]. lia.
    + intros -> Hvalue Hlen Hpos Htakes Hfit.
      unfold transact_etherBulkTransferAmounts.
      destruct (Z.ltb_spec (balance bal (_owner s)) amount); [lia |].
      rewrite NativeFacts.etherBulkTransferAmounts_unfold, NativeFacts.onlyOwner_owner.
      rewrite NativeFacts.sum_loop_ok by (done || lia). cbn [ether].
      destruct (Z.leb_spec (0 + total_amount params)
                  (balance (move bal (_owner s) this amount) this)); [| lia].
      rewrite NativeMore.transfer_loop_ok by (done || cbn [ether]; lia).
      cbn [ether sent app]. by eexists.
Qed.

Lemma gate_agrees_with_contract_witness :
  let sendingInvoices :=
    [ {| SendingInvoice.amount := 10; SendingInvoice.receiver := "0xR1" |};
      {| SendingInvoice.amount := 21; SendingInvoice.receiver := "0xR2" |} ] in
  let params :=
    [ {| InvoiceParams.receiver := 61; InvoiceParams.amount := 10 |};
      {| InvoiceParams.receiver := 62; InvoiceParams.amount := 21 |} ] in
  (processInvoices Fixtures.demo_config Fixtures.demo_provider 0 sendingInvoices [] =
     (Rejected "Insufficient funds in contract to process invoices", []) ∧
   transact_etherBulkTransferAmounts 100 (fun _ => true) (deployed 9)
     {[ 100 := 30 ]} 9 0 params = ({[ 100 := 30 ]}, Revert INSUFFICIENT_FUNDS, [])) ∧
  ∃ bal',
    transact_etherBulkTransferAmounts 100 (fun _ => true) (deployed 9)
      {[ 100 := 30; 9 := 1 ]} 9 1 params = (bal', Ok tt, sends_of params).
Proof.
  intros sendingInvoices params. split.
  - destruct (gate_agrees_with_contract Fixtures.demo_config Fixtures.demo_provider
                100 (fun _ => true) (deployed 9) {[ 100 := 30 ]} 9 0
                sendingInvoices params []) as [Hrefused _];
      [reflexivity | lia | reflexivity |].
    destruct Hrefused as (Hthrown & f & Hrun & Hf); [vm_compute; reflexivity |].
    split; [exact Hthrown |]. rewrite Hrun.
    rewrite Hf; [reflexivity | reflexivity | vm_compute; discriminate | cbn; lia
                | repeat constructor; cbn; lia | vm_compute; discriminate].
  - destruct (gate_agrees_with_contract Fixtures.demo_config Fixtures.demo_provider
                100 (fun _ => true) (deployed 9) {[ 100 := 30; 9 := 1 ]} 9 1
                sendingInvoices params []) as [_ Hpassed];
      [reflexivity | lia | reflexivity |].
    destruct Hpassed as (_ & _ & _ & Hgoes); [vm_compute; discriminate |].
    apply Hgoes; [reflexivity | vm_compute; discriminate | cbn; lia
                 | repeat constructor; cbn; lia | repeat constructor
                 | vm_compute; discriminate].
Defined.

Lemma last_registered_not_found o ts a :
  Z.of_nat (length ts) < 65535 → a ≠ 0 → a ∉ ts →
  Contract.getTokenByAddress (register_all (deployed o) (ts ++ [a])).1 a = Ok 0.
Proof.
  intros Hlen Ha Hnew.
  destruct (Registry.register_all_deployed o (ts ++ [a])) as (s & -> & Hf).
  { rewrite length_app. cbn. lia. }
  pose proof Hf as (_ & Hid & _). rewrite length_app in Hid. cbn [length] in Hid.
  cbn [fst]. unfold Contract.getTokenByAddress.
  apply Registry.loop_not_found; unfold UINT16_MAX; try lia.
  intros j Hj Hat. destruct (decide (j = 0)) as [| Hj0]; [done |]. exfalso.
  pose proof (Registry.filled_slot s o _ j Hf) as Hs. rewrite length_app in Hs.
  cbn [length] in Hs.
  rewrite lookup_app_l, Hat in Hs by lia.
  apply Hnew, list_elem_of_lookup. eexists. apply Hs. lia.
Qed.

(** X: the token registered last cannot be used in a token batch. When
    the provider answers for the invoice's token what the contract's
    [getTokenByAddress] returns for the address registered last (a new,
    nonzero address), [processTokenInvoices] reports
    [TOKEN_NOT_IN_CONTRACT] for the invoice and sends nothing. *)
Theorem latest_token_fails_validation config P o ts a invoice w :
  Z.of_nat (length ts) < 65535 → a ≠ 0 → a ∉ ts →
  (∀ k, Contract.getTokenByAddress (register_all (deployed o) (ts ++ [a])).1 a = Ok k →
        Orchestrator.getTokenByAddress P (SendingTokenInvoice.tokenAddress invoice)
          = Resolved k) →
  processTokenInvoices config P [invoice] w =
    (Resolved [TOKEN_NOT_IN_CONTRACT invoice], w).
Proof.
  intros Hlen Ha Hnew Hview.
  specialize (Hview 0 (last_registered_not_found o ts a Hlen Ha Hnew)).
  unfold processTokenInvoices, mbind at 1, io_bind. rewrite loop_spec.
  cbn [spec_validate]. unfold spec_check, mbind, outcome_bind. rewrite Hview. cbn.
  reflexivity.
Qed.

Lemma latest_token_fails_validation_witness :
  processTokenInvoices Fixtures.demo_config Fixtures.demo_provider
    [Fixtures.invoice_unknown] [] =
    (Resolved [TOKEN_NOT_IN_CONTRACT Fixtures.invoice_unknown], []).
Proof.
  apply (latest_token_fails_validation Fixtures.demo_config Fixtures.demo_provider
           9 [77] 78 Fixtures.invoice_unknown []).
  - cbn. lia.
  - lia.
  - rewrite not_elem_of_cons. split; [lia | apply not_elem_of_nil].
  - intros k Hk. vm_compute in Hk. injection Hk as <-. reflexivity.
Defined.

Lemma spec_check_bound config P invoice errors invoices :
  spec_check config P invoice = Resolved (errors, invoices) →
  (length errors ≤ 2)%nat ∧
  Forall (fun error => CustomError.code error ∈ error_codes) errors.
Proof.
  unfold spec_check, mbind, outcome_bind, error_codes.
  destruct (Orchestrator.getTokenByAddress P _) as [id | e]; [| done].
  destruct (id =? 0).
  { intros [= <- <-]. split; [cbn; lia |]. repeat constructor. }
  destruct (balanceOf P _ _) as [held | e]; [| done].
  destruct (allowance P _ _ _) as [allowed | e]; [| done].
  intros [= <- <-].
  destruct (_ <? held), (_ <? allowed); cbn [app length]; (split; [lia |]);
    repeat constructor; apply list_elem_of_further; repeat constructor.
Qed.

Lemma spec_validate_bound config P batch errors invoices :
  spec_validate config P batch = Resolved (errors, invoices) →
  (length errors ≤ 2 * length batch)%nat ∧
  Forall (fun error => CustomError.code error ∈ error_codes) errors.
Proof.
  revert errors invoices. induction batch as [| invoice rest IH]; intros errors invoices;
    cbn [spec_validate].
  - intros [= <- <-]. by split.
  - unfold mbind at 1, outcome_bind.
    destruct (spec_check config P invoice) as [[errors1 invoices1] | e] eqn:Hone; [| done].
    unfold mbind, outcome_bind.
    destruct (spec_validate config P rest) as [[errors' invoices'] | e]; [| done].
    intros [= <- <-].
    destruct (spec_check_bound _ _ _ _ _ Hone) as [Hlen1 Hcodes1].
    destruct (IH _ _ eq_refl) as [Hlen Hcodes].
    rewrite length_app. cbn [length]. split; [lia | by apply Forall_app].
Qed.

(** X: what [processTokenInvoices] can return. A returned list has at
    most two errors for each invoice of the batch, each with one of the
    three codes; and when it is not empty nothing was sent to the
    ledger. *)
Theorem validation_errors_bounded config P batch w errors w' :
  processTokenInvoices config P batch w = (Resolved errors, w') →
  (length errors ≤ 2 * length batch)%nat ∧
  Forall (fun error => CustomError.code error ∈ error_codes) errors ∧
  (errors ≠ [] → w' = w).
Proof.
  unfold processTokenInvoices, mbind at 1, io_bind. rewrite loop_spec.
  destruct (spec_validate config P batch) as [[errors0 invoices] | e] eqn:Hval; [| done].
  destruct (spec_validate_bound _ _ _ _ _ Hval) as [Hlen Hcodes].
  cbn [app]. destruct errors0 as [| error errors0]; cbn [length].
  - rewrite bool_decide_eq_false_2 by lia.
    unfold mbind, io_bind, send. destruct (submit P _); [| done].
    intros [= <- <-]. cbn. repeat split; try done; lia.
  - rewrite bool_decide_eq_true_2 by lia. intros [= <- <-]. by repeat split.
Qed.

Lemma validation_errors_bounded_witness :
  (length [TOKEN_NOT_IN_CONTRACT Fixtures.invoice_unknown;
           INSUFFICIENT_BALANCE Fixtures.invoice_exact;
           INSUFFICIENT_ALLOWANCE Fixtures.invoice_exact] ≤ 2 * 3)%nat.
Proof.
  destruct (validation_errors_bounded Fixtures.demo_config Fixtures.demo_provider
              [Fixtures.invoice_unknown; Fixtures.invoice_exact; Fixtures.invoice_good] []
              [TOKEN_NOT_IN_CONTRACT Fixtures.invoice_unknown;
               INSUFFICIENT_BALANCE Fixtures.invoice_exact;
               INSUFFICIENT_ALLOWANCE Fixtures.invoice_exact] [])
    as [Hlen _]; [reflexivity | exact Hlen].
Defined.

(** X: an empty batch is still a transaction. [processTokenInvoices] with
    no invoices records no error and sends the token distribution call
    with an empty list; on the contract that call, made by the owner,
    succeeds without a [transferFrom]; and the native entry point called
    by the owner with no invoices succeeds without a send and keeps the
    attached value. *)
Theorem empty_batch_is_still_sent {E} `{IERC20 E} config P this accepts s (e : E)
    bal msg_value w :
  processTokenInvoices config P [] w =
    (match submit P (Erc20sMultiOriginBulkTransferAmounts
                       (signerAddress P (Config.ownerWallet config)) []) with
     | Resolved _ => Resolved []
     | Rejected x => Rejected x
     end,
     w ++ [Erc20sMultiOriginBulkTransferAmounts
             (signerAddress P (Config.ownerWallet config)) []]) ∧
  transact_erc20sMultiOriginBulkTransferAmounts this s e (_owner s) [] = (e, Ok tt, []) ∧
  (msg_value ≤ balance bal (_owner s) →
   0 ≤ held_at_call this bal (_owner s) msg_value →
   transact_etherBulkTransferAmounts this accepts s bal (_owner s) msg_value []
     = (move bal (_owner s) this msg_value, Ok tt, [])).
Proof.
  repeat split.
  - unfold processTokenInvoices, mbind, io_bind, send, getEtherSigner. cbn.
    by destruct (submit P _).
  - unfold transact_erc20sMultiOriginBulkTransferAmounts,
      erc20sMultiOriginBulkTransferAmounts, mbind, exec_bind, lift.
    by rewrite NativeFacts.onlyOwner_owner.
  - intros Hvalue Hheld. unfold transact_etherBulkTransferAmounts, held_at_call in *.
    destruct (Z.ltb_spec (balance bal (_owner s)) msg_value); [lia |].
    rewrite NativeFacts.etherBulkTransferAmounts_unfold, NativeFacts.onlyOwner_owner.
    cbn [sum_loop ether].
    by destruct (Z.leb_spec 0 (balance (move bal (_owner s) this msg_value) this));
      [| lia].
Qed.

Lemma empty_batch_is_still_sent_witness :
  transact_etherBulkTransferAmounts 100 (fun _ => true) (deployed 9) {[ 9 := 5 ]} 9 5 []
    = (move {[ 9 := 5 ]} 9 100 5, Ok tt, []).
Proof.
  destruct (empty_batch_is_still_sent Fixtures.demo_config Fixtures.demo_provider
              100 (fun _ => true) (deployed 9) ContractFixtures.two_tokens
              {[ 9 := 5 ]} 5 []) as (_ & _ & Hnative).
  apply Hnative; vm_compute; discriminate.
Defined.

End OrchestratorMore.
